(** * rdf2go: the quad store and its format bridge

    A shallow embedding of the [Dataset] type of rdf2go and of the
    operations built on it: insertion, removal, pattern queries, merge,
    the TriG block scanner, the dispatch of [Parse] and [Serialize] on a
    mime type, and the flat and TriG writers.

    Go values are rendered as follows.
    - [string] is a byte string: Rocq's [string].
    - An interface value of type [Term] may be [nil]: [option Term].
    - A [*Quad] is an address into a heap of allocated quads; the heap only
      grows ([NewQuad] appends a cell), and an address outside the heap
      stands for a pointer that cannot be dereferenced.
    - [map[*Quad]bool] is a [gmap] from addresses to [bool].
    - A nil dereference or a method call on a nil interface is the outcome
      [Panic] of the [result] monad.
    - The order in which [range] visits a map is chosen by the runtime: an
      [Order] is one such choice, and every statement quantifies over it. *)

From Stdlib Require Import Ascii String List Arith Lia.
From stdpp Require Import base option list gmap strings fin_maps.

Local Open Scope string_scope.
Local Open Scope list_scope.
#[local] Set Warnings "-register-all".

(** ** Bytes and the [strings] package *)

Module strings.

Definition chr (n : nat) : string := String (ascii_of_nat n) EmptyString.

(** The line feed and the double quote, by their ASCII codes. *)
Definition LF : string := chr 10.
Definition DQUOTE : string := chr 34.

Definition HasPrefix (s prefix : string) : bool := String.prefix prefix s.

Definition HasSuffix (s suffix : string) : bool :=
  String.prefix (String.rev suffix) (String.rev s).

(** [Contains s substr]: [substr] starts at some position of [s]. *)
Fixpoint Contains (s substr : string) : bool :=
  String.prefix substr s ||
  match s with
  | EmptyString => false
  | String _ s' => Contains s' substr
  end.

(** [Split s sep] for a separator of one byte, the only kind the
    dataset code passes ([LF] and the opening brace): the pieces of [s]
    between the occurrences of [sep], [n + 1] pieces for [n] occurrences. *)
Fixpoint Split_go (sep : ascii) (cur : string) (s : string) : list string :=
  match s with
  | EmptyString => [String.rev cur]
  | String c s' =>
      if Ascii.eqb c sep
      then String.rev cur :: Split_go sep EmptyString s'
      else Split_go sep (String c cur) s'
  end.

Definition Split (s : string) (sep : ascii) : list string :=
  Split_go sep EmptyString s.

Fixpoint Join (elems : list string) (sep : string) : string :=
  match elems with
  | [] => EmptyString
  | [e] => e
  | e :: rest => e +:+ sep +:+ Join rest sep
  end.

(** White space as [unicode.IsSpace] has it, in UTF-8: the six ASCII
    blanks, U+0085 and U+00A0, and the blanks of the general punctuation
    block (U+1680, U+2000 to U+200A, U+2028, U+2029, U+202F, U+205F,
    U+3000). *)
Definition ascii_space (c : ascii) : bool :=
  let n := nat_of_ascii c in
  ((9 <=? n)%nat && (n <=? 13)%nat || (n =? 32)%nat)%bool.

Definition bytes (l : list nat) : string :=
  fold_right (fun n s => String (ascii_of_nat n) s) EmptyString l.

Definition wide_spaces : list string :=
  map bytes
    ([ [194; 133]; [194; 160]; [225; 154; 128] ] ++
     map (fun k => [226; 128; 128 + k]) (seq 0 11) ++
     [ [226; 128; 168]; [226; 128; 169]; [226; 128; 175];
       [226; 129; 159]; [227; 128; 128] ]).

(** The number of bytes of the blank rune [s] starts with, or [0]. *)
Definition leading_space (s : string) : nat :=
  match s with
  | EmptyString => 0
  | String c _ =>
      if ascii_space c then 1
      else match filter (fun w => String.prefix w s = true) wide_spaces with
           | w :: _ => String.length w
           | [] => 0
           end
  end.

Fixpoint drop_bytes (n : nat) (s : string) : string :=
  match n, s with
  | S k, String _ s' => drop_bytes k s'
  | _, _ => s
  end.

Fixpoint TrimLeft_go (fuel : nat) (s : string) : string :=
  match fuel with
  | O => s
  | S k =>
      match leading_space s with
      | O => s
      | n => TrimLeft_go k (drop_bytes n s)
      end
  end.

Definition TrimLeft (s : string) : string := TrimLeft_go (String.length s) s.

(** Trailing blanks are the leading blanks of the reversed string, each
    wide blank read with its bytes reversed. *)
Definition trailing_space (r : string) : nat :=
  match r with
  | EmptyString => 0
  | String c _ =>
      if ascii_space c then 1
      else match filter (fun w => String.prefix (String.rev w) r = true)
                        wide_spaces with
           | w :: _ => String.length w
           | [] => 0
           end
  end.

Fixpoint TrimRight_go (fuel : nat) (r : string) : string :=
  match fuel with
  | O => r
  | S k =>
      match trailing_space r with
      | O => r
      | n => TrimRight_go k (drop_bytes n r)
      end
  end.

Definition TrimRight (s : string) : string :=
  String.rev (TrimRight_go (String.length s) (String.rev s)).

Definition TrimSpace (s : string) : string := TrimRight (TrimLeft s).

(** [s[lo:hi]] for [lo <= hi <= len(s)]. *)
Definition slice (s : string) (lo hi : nat) : string :=
  String.substring lo (hi - lo) s.

End strings.

(** ** Terms *)

(** Modelled from the spec: the file that defines terms is not among the
    sources. A term is a resource, a literal or a blank node (spec,
    section 3); the field names
    [URI], [Value], [Language], [Datatype] and [ID] are the ones
    [termToJSONLDValue] reads, where [Language] is a string tested with
    [len] and [Datatype] is a [Term] tested against [nil]. *)
Inductive Term : Type :=
  | Resource (URI : string)
  | Literal (Value : string) (Language : string) (Datatype : option Term)
  | BlankNode (ID : string).

(** Modelled from the spec: the canonical text of a term, [<uri>] for a
    resource, the quoted value followed by [@lang] or by [^^] and the
    datatype for a literal, [_:id] for a blank node. *)
Fixpoint Term_String (t : Term) : string :=
  match t with
  | Resource uri => "<" +:+ uri +:+ ">"
  | Literal value lang datatype =>
      strings.DQUOTE +:+ value +:+ strings.DQUOTE +:+
      (if (0 <? String.length lang)%nat then "@" +:+ lang
       else match datatype with
            | Some dt => "^^" +:+ Term_String dt
            | None => EmptyString
            end)
  | BlankNode id => "_:" +:+ id
  end.

(** Modelled from the spec: equality of terms is structural and specific to
    the variant; an absent language tag or datatype matches only an absent
    one. The argument is an interface value and may be [nil], which equals
    no term. *)
Fixpoint Term_Equal (t : Term) (other : option Term) : bool :=
  match t, other with
  | Resource uri, Some (Resource uri') => String.eqb uri uri'
  | Literal v l dt, Some (Literal v' l' dt') =>
      String.eqb v v' && String.eqb l l' &&
      match dt, dt' with
      | None, None => true
      | Some d, Some d' => Term_Equal d (Some d')
      | _, _ => false
      end
  | BlankNode id, Some (BlankNode id') => String.eqb id id'
  | _, _ => false
  end.

(** Modelled from the spec: [NewResource], defined with the terms, builds
    the resource with the given URI; the result is never nil. *)
Definition NewResource (uri : string) : option Term := Some (Resource uri).

(** ** Outcomes: a value, or a run-time panic *)

Inductive result (A : Type) : Type :=
  | Ok (a : A)
  | Panic.
Arguments Ok {A} a.
Arguments Panic {A}.

Definition bind {A B : Type} (r : result A) (k : A -> result B) : result B :=
  match r with
  | Ok a => k a
  | Panic => Panic
  end.

Notation "'let*' x ':=' r 'in' k" := (bind r (fun x => k))
  (at level 10, x name, r at level 100, k at level 200).

(** [recv.Equal(other)] on an interface value: a nil receiver panics. *)
Definition call_Equal (recv other : option Term) : result bool :=
  match recv with
  | Some t => Ok (Term_Equal t other)
  | None => Panic
  end.

(** ** Quads ([quad.go]) *)

Record Quad : Type := mkQuad {
  Subject : option Term;
  Predicate : option Term;
  Object : option Term;
  Graph : option Term   (* nil for the default graph *)
}.

Definition QuadPtr : Type := nat.
Definition Heap : Type := list Quad.

(** [NewQuad] allocates: the new cell sits at the end of the heap. *)
Definition NewQuad (h : Heap) (subject predicate object graph : option Term)
  : Heap * QuadPtr :=
  (h ++ [mkQuad subject predicate object graph], length h).

Definition Quad_String (quad : Quad) : string :=
  let subjStr := match Subject quad with
                 | Some t => Term_String t
                 | None => "nil"
                 end in
  let predStr := match Predicate quad with
                 | Some t => Term_String t
                 | None => "nil"
                 end in
  let objStr := match Object quad with
                | Some t => Term_String t
                | None => "nil"
                end in
  match Graph quad with
  | Some g =>
      subjStr +:+ " " +:+ predStr +:+ " " +:+ objStr +:+ " " +:+
      Term_String g +:+ " ."
  | None => subjStr +:+ " " +:+ predStr +:+ " " +:+ objStr +:+ " ."
  end.

(** [quad.Equal(other)]. The receiver is a quad value; [other] is a
    [*Quad], read here as what the pointer gives: [None] for a nil pointer,
    the quad it points to otherwise. The first thing evaluated is
    [other.Subject], which panics on a nil pointer. [&&] evaluates its
    right operand only when the left one is true. *)
Definition Quad_Equal (quad : Quad) (other : option Quad) : result bool :=
  match other with
  | None => Panic
  | Some other =>
      let* sameTriple :=
        (let* b1 := call_Equal (Subject quad) (Subject other) in
         if b1 then
           let* b2 := call_Equal (Predicate quad) (Predicate other) in
           if b2 then call_Equal (Object quad) (Object other) else Ok false
         else Ok false) in
      match Graph quad, Graph other with
      | None, None => Ok sameTriple
      | None, Some _ | Some _, None => Ok false
      | Some g, Some _ =>
          if sameTriple then Ok (Term_Equal g (Graph other)) else Ok false
      end
  end.

(** A [*Quad] method call dereferences its receiver. *)
Definition deref (h : Heap) (q : QuadPtr) : result Quad :=
  match h !! q with
  | Some quad => Ok quad
  | None => Panic
  end.

(** ** The runtime's choice of iteration order *)

Record Order : Type := mkOrder {
  shuffle : forall A : Type, list A -> list A;
  shuffle_perm : forall (A : Type) (l : list A), shuffle A l ≡ₚ l
}.
Arguments shuffle _ {A} _.

Definition in_order : Order := mkOrder (fun _ l => l) (fun _ l => reflexivity l).
Definition reversed : Order :=
  mkOrder (fun _ l => reverse l) (fun _ l => reverse_Permutation l).

(** ** Datasets *)

(** The [httpClient] field serves [LoadURI] only and is left out. *)
Record Dataset : Type := mkDataset {
  quads : gmap nat bool;
  uri : string;
  term : option Term
}.

Definition NewDataset (uri : string) : Dataset :=
  mkDataset ∅ uri (NewResource uri).

Definition Len (d : Dataset) : nat := size (quads d).

Definition set_quads (d : Dataset) (m : gmap nat bool) : Dataset :=
  mkDataset m (uri d) (term d).

Definition Add (d : Dataset) (q : QuadPtr) : Dataset :=
  set_quads d (<[q := true]> (quads d)).

Definition AddQuad (h : Heap) (d : Dataset) (s p o g : option Term)
  : Heap * Dataset :=
  let '(h', q) := NewQuad h s p o g in
  (h', set_quads d (<[q := true]> (quads d))).

Definition AddTriple (h : Heap) (d : Dataset) (s p o : option Term)
  : Heap * Dataset :=
  let '(h', q) := NewQuad h s p o None in
  (h', set_quads d (<[q := true]> (quads d))).

Definition Remove (d : Dataset) (q : QuadPtr) : Dataset :=
  set_quads d (delete q (quads d)).

(** The channel [IterQuads] returns, already filled and closed: the keys
    of the map in the order the runtime visits them. *)
Definition IterQuads (σ : Order) (d : Dataset) : list QuadPtr :=
  shuffle σ (map fst (map_to_list (quads d))).

(** One [continue] guard of [One] and [All] on the subject, predicate or
    object: [pat != nil && !field.Equal(pat)]. *)
Definition guard_term (field pat : option Term) : result bool :=
  match pat with
  | None => Ok false
  | Some _ => let* eq := call_Equal field pat in Ok (negb eq)
  end.

(** [g != nil && (quad.Graph == nil || !quad.Graph.Equal(g))] *)
Definition guard_named (graph g : option Term) : bool :=
  match g with
  | None => false
  | Some _ =>
      match graph with
      | None => true
      | Some gt => negb (Term_Equal gt g)
      end
  end.

(** [g == nil && quad.Graph != nil] *)
Definition guard_default (graph g : option Term) : bool :=
  match g with
  | None => match graph with Some _ => true | None => false end
  | Some _ => false
  end.

(** The five guards of the loop body, in order; [true] when one of them
    fires and the loop moves on to the next quad. [One] and [All] spell out
    the same five. *)
Definition skipped (quad : Quad) (s p o g : option Term) : result bool :=
  let* c1 := guard_term (Subject quad) s in
  if c1 then Ok true else
  let* c2 := guard_term (Predicate quad) p in
  if c2 then Ok true else
  let* c3 := guard_term (Object quad) o in
  if c3 then Ok true else
  if guard_named (Graph quad) g then Ok true else
  if guard_default (Graph quad) g then Ok true else
  Ok false.

Fixpoint One_loop (h : Heap) (ch : list QuadPtr) (s p o g : option Term)
  : result (option QuadPtr) :=
  match ch with
  | [] => Ok None
  | q :: rest =>
      let* quad := deref h q in
      let* skip := skipped quad s p o g in
      if skip then One_loop h rest s p o g else Ok (Some q)
  end.

(** [One]: [None] is the nil result. *)
Definition One (σ : Order) (h : Heap) (d : Dataset) (s p o g : option Term)
  : result (option QuadPtr) :=
  One_loop h (IterQuads σ d) s p o g.

Fixpoint All_loop (h : Heap) (ch : list QuadPtr) (s p o g : option Term)
    (found : list QuadPtr) : result (list QuadPtr) :=
  match ch with
  | [] => Ok found
  | q :: rest =>
      let* quad := deref h q in
      let* skip := skipped quad s p o g in
      if skip then All_loop h rest s p o g found
      else All_loop h rest s p o g (found ++ [q])
  end.

Definition All (σ : Order) (h : Heap) (d : Dataset) (s p o g : option Term)
  : result (list QuadPtr) :=
  All_loop h (IterQuads σ d) s p o g [].

Definition Merge (σ : Order) (d toMerge : Dataset) : Dataset :=
  foldl Add d (IterQuads σ toMerge).

(** ** Writers *)

(** An [io.Writer] is the text written to it so far. *)
Definition Writer : Type := string.
Definition error : Type := string.

Definition Fprintln (w : Writer) (s : string) : Writer := w +:+ s +:+ strings.LF.

Fixpoint String_loop (h : Heap) (ch : list QuadPtr) (toString : string)
  : result string :=
  match ch with
  | [] => Ok toString
  | q :: rest =>
      let* quad := deref h q in
      String_loop h rest (toString +:+ (Quad_String quad +:+ strings.LF))
  end.

(** [Dataset.String] *)
Definition Dataset_String (σ : Order) (h : Heap) (d : Dataset) : result string :=
  String_loop h (IterQuads σ d) EmptyString.

Fixpoint serializeNQuads_loop (h : Heap) (ch : list QuadPtr) (w : Writer)
  : result Writer :=
  match ch with
  | [] => Ok w
  | q :: rest =>
      let* quad := deref h q in
      serializeNQuads_loop h rest (Fprintln w (Quad_String quad))
  end.

Definition serializeNQuads (σ : Order) (h : Heap) (d : Dataset) (w : Writer)
  : result (Writer * option error) :=
  let* w' := serializeNQuads_loop h (IterQuads σ d) w in
  Ok (w', None).

(** Modelled from the spec: [encodeTerm] is defined in a file that is not
    among the sources. A triple line of the TriG writer uses the
    canonical term encodings (spec, section 4.4). The spec gives an absent
    term no encoding; it is written as nothing here. *)
Definition encodeTerm (t : option Term) : string :=
  match t with
  | Some t => Term_String t
  | None => EmptyString
  end.

(** [fmt.Fprintf(w, "  %s %s %s .\n", ...)] for one quad. *)
Definition trig_line (quad : Quad) : string :=
  "  " +:+ encodeTerm (Subject quad) +:+ " " +:+ encodeTerm (Predicate quad)
  +:+ " " +:+ encodeTerm (Object quad) +:+ " ." +:+ strings.LF.

(** The first loop of [serializeTrig]: quads of the default graph in one
    slice, the others in a map keyed by the text of their graph term. *)
Fixpoint group_quads (h : Heap) (ch : list QuadPtr)
    (graphQuads : gmap string (list QuadPtr)) (defaultGraphQuads : list QuadPtr)
  : result (gmap string (list QuadPtr) * list QuadPtr) :=
  match ch with
  | [] => Ok (graphQuads, defaultGraphQuads)
  | q :: rest =>
      let* quad := deref h q in
      match Graph quad with
      | None => group_quads h rest graphQuads (defaultGraphQuads ++ [q])
      | Some g =>
          let graphName := Term_String g in
          group_quads h rest
            (<[graphName := default [] (graphQuads !! graphName) ++ [q]]> graphQuads)
            defaultGraphQuads
      end
  end.

Fixpoint write_lines (h : Heap) (qs : list QuadPtr) (w : Writer) : result Writer :=
  match qs with
  | [] => Ok w
  | q :: rest =>
      let* quad := deref h q in
      write_lines h rest (w +:+ trig_line quad)
  end.

Fixpoint write_named (h : Heap) (blocks : list (string * list QuadPtr))
    (w : Writer) : result Writer :=
  match blocks with
  | [] => Ok w
  | (graphName, qs) :: rest =>
      let* w1 := write_lines h qs (w +:+ strings.LF +:+ graphName +:+ " {" +:+ strings.LF) in
      write_named h rest (Fprintln w1 "}")
  end.

Definition serializeTrig (σ : Order) (h : Heap) (d : Dataset) (w : Writer)
  : result (Writer * option error) :=
  let* groups := group_quads h (IterQuads σ d) ∅ [] in
  let '(graphQuads, defaultGraphQuads) := groups in
  let* w1 :=
    (if (0 <? length defaultGraphQuads)%nat then
       let* w' := write_lines h defaultGraphQuads (Fprintln w "{") in
       Ok (Fprintln w' "}")
     else Ok w) in
  let* w2 := write_named h (shuffle σ (map_to_list graphQuads)) w1 in
  Ok (w2, None).

(** ** The mime registries *)

Definition mimeParser : gmap string string :=
  list_to_map
    [ ("text/turtle", "turtle");
      ("application/trig", "trig");
      ("application/ld+json", "jsonld");
      ("application/sparql-update", "internal") ].

Definition mimeSerializer : gmap string string :=
  list_to_map
    [ ("application/ld+json", "jsonld");
      ("application/trig", "trig");
      ("text/html", "internal") ].

(** Indexing a Go map with a key it lacks yields the zero value. *)
Definition index (m : gmap string string) (key : string) : string :=
  default EmptyString (m !! key).

(** ** External collaborators *)

(** A triple as the parsers deliver it, each term already converted to a
    [Term] ([rdf2term], [jterm2term]). *)
Definition triple : Type := option Term * option Term * option Term.

Inductive parsed : Type :=
  | ParseError (err : error)
  | Triples (ts : list triple).

(** [jsonld.Options], the two fields [Parse] sets. *)
Record Options : Type := mkOptions {
  Base : string;
  ProduceGeneralizedRdf : bool
}.

(** The Turtle grammar parser (gon3), the JSON-LD processor (gojsonld) and
    the JSON-LD writer. The writer is [serializeJSONLD]; it works on the
    [Graph] views of the dataset, whose definition is not among the
    sources, and on [encoding/json], and only its place in the dispatch of
    [Serialize] is used below. *)
Class External : Type := {
  (** [rdf.NewParser(uri).Parse(reader)] followed by [IterTriples] *)
  turtle_Parse : string -> string -> parsed;
  jsonData : Type;
  jsonld_ReadJSON : string -> error + jsonData;
  jsonld_ToRDF : jsonData -> Options -> parsed;
  serializeJSONLD : Order -> Heap -> Dataset -> Writer -> result (Writer * option error)
}.

(** ** Parsing *)

Definition store : Type := Heap * Dataset.

(** [for t := range ...IterTriples() { d.AddTriple(...) }] *)
Definition add_triples (st : store) (ts : list triple) : store :=
  foldl (fun (st : store) (t : triple) =>
           let '(s, p, o) := t in AddTriple st.1 st.2 s p o) st ts.

(** [for s := range parser.IterTriples() { d.AddQuad(..., currentGraph) }] *)
Definition add_quads (st : store) (ts : list triple) (g : option Term) : store :=
  foldl (fun (st : store) (t : triple) =>
           let '(s, p, o) := t in AddQuad st.1 st.2 s p o g) st ts.

Definition parseGraphName (graphStr : string) : option Term :=
  let graphStr := strings.TrimSpace graphStr in
  if strings.HasPrefix graphStr "<" && strings.HasSuffix graphStr ">"
  then NewResource (strings.slice graphStr 1 (String.length graphStr - 1))
  else NewResource graphStr.

Definition processTripleLines `{External} (st : store) (lines : list string)
    (currentGraph : option Term) : store :=
  let content := strings.Join lines strings.LF in
  match turtle_Parse (uri st.2) content with
  | ParseError _ => st   (* Skip invalid content *)
  | Triples ts => add_quads st ts currentGraph
  end.

(** The variables of the loop of [parseTrig]. *)
Record scanner : Type := mkScanner {
  currentGraph : option Term;
  currentTripleLines : list string;
  current : store
}.

(** The body of the loop of [parseTrig], for one line. *)
Definition parseTrig_line `{External} (sc : scanner) (line : string) : scanner :=
  let line := strings.TrimSpace line in
  if String.eqb line EmptyString || strings.HasPrefix line "#" then sc
  else if strings.HasPrefix line "@prefix" then sc
  else if strings.Contains line "{" then
    let parts := strings.Split line "{"%char in
    if (1 <? length parts)%nat then
      let graphPart := strings.TrimSpace (nth 0 parts EmptyString) in
      if String.eqb graphPart EmptyString
      then mkScanner None (currentTripleLines sc) (current sc)
      else mkScanner (parseGraphName graphPart) (currentTripleLines sc) (current sc)
    else sc
  else if strings.Contains line "}" then
    if (0 <? length (currentTripleLines sc))%nat
    then mkScanner None []
           (processTripleLines (current sc) (currentTripleLines sc) (currentGraph sc))
    else mkScanner None (currentTripleLines sc) (current sc)
  else if negb (String.eqb line EmptyString) then
    let lines := currentTripleLines sc ++ [line] in
    if strings.HasSuffix line "."
    then mkScanner (currentGraph sc) []
           (processTripleLines (current sc) lines (currentGraph sc))
    else mkScanner (currentGraph sc) lines (current sc)
  else sc.

Definition parseTrig `{External} (st : store) (reader : string) : store * option error :=
  let lines := strings.Split reader "010"%char in
  let sc := foldl parseTrig_line (mkScanner None [] st) lines in
  let st' :=
    if (0 <? length (currentTripleLines sc))%nat
    then processTripleLines (current sc) (currentTripleLines sc) (currentGraph sc)
    else current sc in
  (st', None).

Definition Parse `{External} (st : store) (reader : string) (mime : string)
  : store * option error :=
  let parserName := index mimeParser mime in
  let parserName :=
    if (String.length parserName =? 0)%nat then "guess" else parserName in
  if String.eqb parserName "trig" then parseTrig st reader
  else if String.eqb parserName "jsonld" then
    match jsonld_ReadJSON reader with
    | inl err => (st, Some err)
    | inr jsonData =>
        let options := mkOptions EmptyString false in
        match jsonld_ToRDF jsonData options with
        | ParseError err => (st, Some err)
        | Triples ts => (add_triples st ts, None)
        end
    end
  else if String.eqb parserName "turtle" then
    match turtle_Parse (uri st.2) reader with
    | ParseError err => (st, Some err)
    | Triples ts => (add_triples st ts, None)
    end
  else (st, Some (parserName +:+ " is not supported by the parser")).

(** ** Serializing *)

Definition Serialize `{External} (σ : Order) (h : Heap) (d : Dataset) (w : Writer)
    (mime : string) : result (Writer * option error) :=
  let serializerName := index mimeSerializer mime in
  if String.eqb serializerName "trig" then serializeTrig σ h d w
  else if String.eqb serializerName "jsonld" then serializeJSONLD σ h d w
  else serializeNQuads σ h d w.   (* Default to NQuads *)

(** * Properties *)

(** ** Terms: [Equal] decides equality *)

Fixpoint Term_Equal_eq (t t' : Term) {struct t} :
  Term_Equal t (Some t') = true <-> t = t'.
Proof.
  destruct t as [u|v l dt|i], t' as [u'|v' l' dt'|i']; simpl;
    try (split; [discriminate | intros E; discriminate E]).
  - rewrite String.eqb_eq. split; congruence.
  - rewrite !andb_true_iff, !String.eqb_eq.
    destruct dt as [d|], dt' as [d'|].
    + rewrite (Term_Equal_eq d d'). split; [intros [[-> ->] ->] | intros [= -> -> ->]]; auto.
    + split; [intros [_ E]; discriminate E | intros E; discriminate E].
    + split; [intros [_ E]; discriminate E | intros E; discriminate E].
    + split; [intros [[-> ->] _] | intros [= -> ->]]; auto.
  - rewrite String.eqb_eq. split; congruence.
Qed.

Lemma Term_Equal_refl (t : Term) : Term_Equal t (Some t) = true.
Proof. by apply Term_Equal_eq. Qed.

Lemma Term_Equal_Some (t : Term) (other : option Term) :
  Term_Equal t other = true <-> other = Some t.
Proof.
  destruct other as [t'|].
  - rewrite Term_Equal_eq. split; congruence.
  - destruct t; simpl; split; discriminate.
Qed.

#[global] Instance Term_eq_dec : EqDecision Term.
Proof.
  intros t t'. destruct (Term_Equal t (Some t')) eqn:E.
  - left. by apply Term_Equal_eq.
  - right. intros ->. by rewrite Term_Equal_refl in E.
Defined.

#[global] Instance Quad_eq_dec : EqDecision Quad.
Proof. solve_decision. Defined.

(** ** The store is keyed by address *)

(** Every stored pointer points into the heap. *)
Definition allocated (h : Heap) (d : Dataset) : Prop :=
  forall q : QuadPtr, is_Some (quads d !! q) -> q < length h.

Definition keys (d : Dataset) : list QuadPtr := map fst (map_to_list (quads d)).

(** The quad values a dataset holds, one per stored pointer. *)
Definition values (h : Heap) (d : Dataset) : list Quad :=
  omap (fun q : QuadPtr => h !! q) (keys d).

(** The number of distinct quad values held by [d1] or by [d2]. *)
Definition value_union_size (h : Heap) (d1 d2 : Dataset) : nat :=
  length (remove_dups (values h d1 ++ values h d2)).

Lemma Dataset_eta (d : Dataset) : set_quads d (quads d) = d.
Proof. by destruct d. Qed.

Lemma elem_of_keys (d : Dataset) (q : QuadPtr) :
  q ∈ keys d <-> is_Some (quads d !! q).
Proof.
  unfold keys. rewrite list_elem_of_fmap. split.
  - intros [[k v] [-> Hin]]. apply elem_of_map_to_list in Hin. by exists v.
  - intros [v Hv]. exists (q, v). split; [done|]. by apply elem_of_map_to_list.
Qed.

Lemma NoDup_keys (d : Dataset) : NoDup (keys d).
Proof. apply NoDup_fst_map_to_list. Qed.

Lemma IterQuads_perm (σ : Order) (d : Dataset) : IterQuads σ d ≡ₚ keys d.
Proof. apply shuffle_perm. Qed.

Lemma elem_of_IterQuads (σ : Order) (d : Dataset) (q : QuadPtr) :
  q ∈ IterQuads σ d <-> is_Some (quads d !! q).
Proof. by rewrite (IterQuads_perm σ d), elem_of_keys. Qed.

Lemma NoDup_IterQuads (σ : Order) (d : Dataset) : NoDup (IterQuads σ d).
Proof. rewrite (IterQuads_perm σ d). apply NoDup_keys. Qed.

Lemma allocated_fresh (h : Heap) (d : Dataset) :
  allocated h d -> quads d !! length h = None.
Proof.
  intros Ha. destruct (quads d !! length h) eqn:E; [|done].
  assert (length h < length h) by (apply Ha; eauto). lia.
Qed.

Lemma Len_Add_fresh (d : Dataset) (q : QuadPtr) :
  quads d !! q = None -> Len (Add d q) = S (Len d).
Proof. intros Hq. unfold Len, Add; simpl. by apply map_size_insert_None. Qed.

Lemma Add_Add (d : Dataset) (q : QuadPtr) : Add (Add d q) q = Add d q.
Proof. unfold Add, set_quads; simpl. by rewrite insert_insert_eq. Qed.

Lemma AddQuad_eq (h : Heap) (d : Dataset) (s p o g : option Term) :
  AddQuad h d s p o g = (h ++ [mkQuad s p o g], Add d (length h)).
Proof. reflexivity. Qed.

Lemma AddTriple_eq (h : Heap) (d : Dataset) (s p o : option Term) :
  AddTriple h d s p o = AddQuad h d s p o None.
Proof. reflexivity. Qed.

Lemma Add_allocated (h : Heap) (d : Dataset) (q : QuadPtr) (cell : Quad) :
  allocated h d -> q <= length h -> allocated (h ++ [cell]) (Add d q).
Proof.
  intros Ha Hq k. unfold Add; simpl. rewrite length_app; simpl.
  destruct (decide (q = k)) as [->|Hne].
  - lia.
  - rewrite lookup_insert_ne by done. intros Hk. apply Ha in Hk. lia.
Qed.

Lemma AddQuad_allocated (h : Heap) (d : Dataset) (s p o g : option Term) :
  allocated h d -> allocated (AddQuad h d s p o g).1 (AddQuad h d s p o g).2.
Proof. intros Ha. rewrite AddQuad_eq; simpl. by apply Add_allocated. Qed.

Lemma NewDataset_allocated (h : Heap) (u : string) : allocated h (NewDataset u).
Proof. intros q [v Hv]. simpl in Hv. by rewrite lookup_empty in Hv. Qed.

Lemma foldl_Add_lookup (l : list QuadPtr) (d : Dataset) (q : QuadPtr) :
  is_Some (quads (foldl Add d l) !! q) <-> is_Some (quads d !! q) \/ q ∈ l.
Proof.
  revert d. induction l as [|k l IH]; intros d; simpl.
  - rewrite elem_of_nil. tauto.
  - rewrite IH, elem_of_cons. unfold Add at 1; simpl.
    destruct (decide (k = q)) as [->|Hne].
    + rewrite lookup_insert_eq. split; [auto | intros _; left; eauto].
    + rewrite lookup_insert_ne by done. split; [tauto|].
      intros [?|[?|?]]; [tauto | congruence | tauto].
Qed.

Lemma Merge_lookup (σ : Order) (d1 d2 : Dataset) (q : QuadPtr) :
  is_Some (quads (Merge σ d1 d2) !! q) <->
  is_Some (quads d1 !! q) \/ is_Some (quads d2 !! q).
Proof. unfold Merge. by rewrite foldl_Add_lookup, elem_of_IterQuads. Qed.

Lemma Merge_dom (σ : Order) (d1 d2 : Dataset) :
  dom (quads (Merge σ d1 d2)) = dom (quads d1) ∪ dom (quads d2).
Proof.
  apply set_eq. intros q. rewrite elem_of_union, !elem_of_dom. apply Merge_lookup.
Qed.

Lemma One_loop_found (h : Heap) (ch : list QuadPtr) (s p o g : option Term)
    (q : QuadPtr) :
  One_loop h ch s p o g = Ok (Some q) -> q ∈ ch.
Proof.
  induction ch as [|k ch IH]; simpl; [discriminate|].
  destruct (deref h k) as [quad|]; simpl; [|discriminate].
  destruct (skipped quad s p o g) as [[|]|]; simpl; [| |discriminate].
  - intros Hq. right. auto.
  - intros [= ->]. left.
Qed.

(** ** Worked stores, after [dataset_test.go] *)

Definition testDatasetUri : string := "https://example.org/dataset".
Definition rA : option Term := NewResource "a".
Definition rB : option Term := NewResource "b".
Definition rC : option Term := NewResource "c".
Definition rG : option Term := NewResource "g".

(** [d.AddQuad(a, b, c, g)] on a new dataset, once and twice. *)
Definition added_once : store :=
  AddQuad [] (NewDataset testDatasetUri) rA rB rC rG.
Definition added_twice : store :=
  AddQuad added_once.1 added_once.2 rA rB rC rG.

(** A second dataset that received the same [AddQuad] call. *)
Definition other_added_once : store :=
  AddQuad added_once.1 (NewDataset testDatasetUri) rA rB rC rG.

(** A quad built again from the same four terms, and never inserted. *)
Definition rebuilt : Heap * QuadPtr := NewQuad added_once.1 rA rB rC rG.

(** C1, as stated, fails: two [AddQuad] calls with the same four terms
    leave two stored quads that hold the same value. *)
Lemma AddQuad_twice_stores_two :
  Len added_once.2 = 1 /\ Len added_twice.2 = 2 /\
  added_twice.1 !! 0 = Some (mkQuad rA rB rC rG) /\
  added_twice.1 !! 1 = Some (mkQuad rA rB rC rG) /\
  Quad_Equal (mkQuad rA rB rC rG) (Some (mkQuad rA rB rC rG)) = Ok true.
Proof. vm_compute. repeat split. Qed.

(** C1 (amended): the store is keyed by the address of the quad. Adding the
    same pointer again leaves [Len] as it is; adding two distinct pointers
    that are not stored raises [Len] by two, whatever values they point to;
    and every [AddQuad] and [AddTriple] allocates a quad of its own and
    raises [Len] by one, also when the four terms are those of a quad
    already stored. *)
Theorem Add_dedups_by_pointer (h : Heap) (d : Dataset) (q : QuadPtr)
    (s p o g : option Term) :
  allocated h d ->
  Len (Add (Add d q) q) = Len (Add d q) /\
  (forall q' : QuadPtr, q' <> q -> quads d !! q = None -> quads d !! q' = None ->
     Len (Add (Add d q) q') = S (S (Len d))) /\
  Len (AddQuad h d s p o g).2 = S (Len d) /\
  Len (AddQuad (AddQuad h d s p o g).1 (AddQuad h d s p o g).2 s p o g).2
    = S (S (Len d)) /\
  Len (AddTriple (AddTriple h d s p o).1 (AddTriple h d s p o).2 s p o).2
    = S (S (Len d)).
Proof.
  intros Ha.
  assert (Hstep : forall h d s p o g, allocated h d ->
            Len (AddQuad h d s p o g).2 = S (Len d)).
  { intros h0 d0 ? ? ? ? Ha0. rewrite AddQuad_eq; simpl.
    apply Len_Add_fresh. by apply allocated_fresh. }
  split; [by rewrite Add_Add|].
  split.
  { intros q' Hne Hq Hq'. rewrite Len_Add_fresh.
    - by rewrite Len_Add_fresh.
    - unfold Add; simpl. by rewrite lookup_insert_ne. }
  split; [by apply Hstep|].
  split.
  - rewrite Hstep; [by rewrite Hstep | by apply AddQuad_allocated].
  - rewrite !AddTriple_eq.
    rewrite Hstep; [by rewrite Hstep | by apply AddQuad_allocated].
Qed.

Lemma Add_dedups_by_pointer_witness :
  allocated [] (NewDataset testDatasetUri) /\ Len added_twice.2 = 2.
Proof.
  split.
  - apply NewDataset_allocated.
  - exact (proj1 (proj2 (proj2 (proj2
      (Add_dedups_by_pointer [] (NewDataset testDatasetUri) 0 rA rB rC rG
         (NewDataset_allocated [] testDatasetUri)))))).
Defined.

(** C2, as stated, fails: each of two datasets holds a quad built from the
    same four terms; the merged dataset counts both, while the two hold one
    quad value between them. *)
Lemma Merge_counts_equal_values_twice :
  Len (Merge in_order added_once.2 other_added_once.2) = 2 /\
  value_union_size other_added_once.1 added_once.2 other_added_once.2 = 1.
Proof. vm_compute. split; reflexivity. Qed.

(** C2 (amended): after [d1.Merge(d2)] the pointers stored in [d1] are those
    of [d1] and those of [d2]; [Len] is the size of that union of pointers,
    so a quad both datasets store by the same pointer is counted once. *)
Theorem Merge_Len_is_pointer_union (σ : Order) (d1 d2 : Dataset) :
  dom (quads (Merge σ d1 d2)) = dom (quads d1) ∪ dom (quads d2) /\
  Len (Merge σ d1 d2) = size (dom (quads d1) ∪ dom (quads d2)) /\
  Len (Merge σ d1 d2) + size (dom (quads d1) ∩ dom (quads d2))
    = Len d1 + Len d2.
Proof.
  pose proof (Merge_dom σ d1 d2) as Hdom.
  assert (HLen : Len (Merge σ d1 d2) = size (dom (quads d1) ∪ dom (quads d2))).
  { unfold Len. by rewrite <- Hdom, size_dom. }
  split; [done|]. split; [done|].
  rewrite HLen, size_union_alt, size_difference_alt.
  unfold Len. rewrite <- !(size_dom (quads _)).
  assert (size (dom (quads d2) ∩ dom (quads d1)) <= size (dom (quads d2)))
    by apply subseteq_size, intersection_subseteq_l.
  rewrite (comm_L (∩) (dom (quads d1))). lia.
Qed.

(** C3, as stated, fails: a quad built again from the terms of the stored
    one is [Equal] to it, yet removing it leaves the stored quad in place. *)
Lemma Remove_misses_rebuilt_quad :
  Len (NewDataset testDatasetUri) = 0 /\
  Len added_once.2 = 1 /\
  Len (Remove added_once.2 rebuilt.2) = 1 /\
  (let* stored := deref rebuilt.1 0 in
   let* again := deref rebuilt.1 rebuilt.2 in
   Quad_Equal stored (Some again)) = Ok true.
Proof. vm_compute. repeat split. Qed.

(** C3 (amended): [Remove] deletes by pointer. For a pointer [q] not yet
    stored, [Add(q)] followed by [Remove(q)] gives back the dataset and its
    [Len]; so does removing the pointer a query on the dataset returned.
    Removing any other pointer that is not stored removes nothing. *)
Theorem Remove_deletes_by_pointer (σ : Order) (h : Heap) (d : Dataset)
    (q q' : QuadPtr) (s p o g : option Term) :
  quads d !! q = None ->
  Remove (Add d q) q = d /\
  Len (Remove (Add d q) q) = Len d /\
  (One σ h (Add d q) s p o g = Ok (Some q') ->
     Len (Remove (Add d q) q') = Len d /\
     quads (Remove (Add d q) q') !! q' = None) /\
  (q' <> q -> quads d !! q' = None ->
     Len (Remove (Add d q) q') = S (Len d)).
Proof.
  intros Hq.
  assert (Hback : Remove (Add d q) q = d).
  { unfold Remove, Add, set_quads; simpl.
    rewrite delete_insert_id by done. apply Dataset_eta. }
  split; [done|]. split; [by rewrite Hback|]. split.
  - intros Hone. apply One_loop_found, elem_of_IterQuads in Hone.
    split.
    + unfold Len, Remove; simpl. rewrite map_size_delete_Some by done.
      by rewrite map_size_insert_None.
    + unfold Remove; simpl. apply lookup_delete_eq.
  - intros Hne Hq'. unfold Len, Remove; simpl.
    rewrite map_size_delete_None by (by rewrite lookup_insert_ne).
    by rewrite map_size_insert_None.
Qed.

Lemma Remove_deletes_by_pointer_witness :
  quads (NewDataset testDatasetUri) !! 0 = None /\
  Remove (Add (NewDataset testDatasetUri) 0) 0 = NewDataset testDatasetUri.
Proof.
  split.
  - reflexivity.
  - exact (proj1 (Remove_deletes_by_pointer in_order added_once.1
                    (NewDataset testDatasetUri) 0 1 rA rB rC rG eq_refl)).
Defined.

(** ** Pattern queries *)

(** Every stored pointer is allocated, and the quad it points to has a
    subject, a predicate and an object. *)
Definition well_formed (h : Heap) (d : Dataset) : Prop :=
  forall q : QuadPtr, is_Some (quads d !! q) ->
    exists quad : Quad, h !! q = Some quad /\
      is_Some (Subject quad) /\ is_Some (Predicate quad) /\ is_Some (Object quad).

(** A nil pattern term admits every term; any other admits its equals. *)
Definition wild (pat field : option Term) : Prop := pat = None \/ field = pat.

(** The pattern [s p o g] on a quad: [s], [p] and [o] may be wild cards,
    the graph is compared as it stands, nil with nil. *)
Definition matches (quad : Quad) (s p o g : option Term) : Prop :=
  wild s (Subject quad) /\ wild p (Predicate quad) /\ wild o (Object quad) /\
  Graph quad = g.

Lemma guard_term_wild (t : Term) (pat : option Term) :
  exists b : bool, guard_term (Some t) pat = Ok b /\ (b = false <-> wild pat (Some t)).
Proof.
  destruct pat as [x|]; simpl.
  - exists (negb (Term_Equal t (Some x))). split; [done|].
    unfold wild. rewrite negb_false_iff, Term_Equal_Some.
    split; [intros E; right; congruence | intros [E|E]; congruence].
  - exists false. split; [done|]. unfold wild. tauto.
Qed.

Lemma guard_graph_exact (graph g : option Term) :
  guard_named graph g = false /\ guard_default graph g = false <-> graph = g.
Proof.
  destruct g as [x|], graph as [y|]; simpl.
  - rewrite negb_false_iff, Term_Equal_Some. split; [intros [E _]|intros E]; [congruence|].
    split; congruence.
  - split; [intros [E _]; discriminate E | discriminate].
  - split; [intros [_ E]; discriminate E | discriminate].
  - tauto.
Qed.

Lemma skipped_matches (quad : Quad) (s p o g : option Term) :
  is_Some (Subject quad) -> is_Some (Predicate quad) -> is_Some (Object quad) ->
  exists b : bool, skipped quad s p o g = Ok b /\ (b = false <-> matches quad s p o g).
Proof.
  intros [ts Hs] [tp Hp] [to Ho]. unfold skipped, matches. rewrite Hs, Hp, Ho.
  destruct (guard_term_wild ts s) as (b1 & -> & H1).
  destruct (guard_term_wild tp p) as (b2 & -> & H2).
  destruct (guard_term_wild to o) as (b3 & -> & H3).
  pose proof (guard_graph_exact (Graph quad) g) as Hg. simpl.
  destruct b1; [exists true; split; [done|]; split; [done|]; intros [W _]; by apply H1|].
  destruct b2; [exists true; split; [done|]; split; [done|]; intros (_ & W & _); by apply H2|].
  destruct b3; [exists true; split; [done|]; split; [done|]; intros (_ & _ & W & _); by apply H3|].
  destruct (guard_named (Graph quad) g).
  { exists true. split; [done|]. split; [done|]. intros (_ & _ & _ & W).
    apply Hg in W. destruct W as [W _]. discriminate W. }
  destruct (guard_default (Graph quad) g).
  { exists true. split; [done|]. split; [done|]. intros (_ & _ & _ & W).
    apply Hg in W. destruct W as [_ W]. discriminate W. }
  exists false. split; [done|]. split; [|done]. intros _.
  split; [by apply H1|]. split; [by apply H2|]. split; [by apply H3|]. by apply Hg.
Qed.

(** The quads of a channel can all be read and have their three terms. *)
Definition readable (h : Heap) (ch : list QuadPtr) : Prop :=
  forall q : QuadPtr, q ∈ ch ->
    exists quad : Quad, h !! q = Some quad /\
      is_Some (Subject quad) /\ is_Some (Predicate quad) /\ is_Some (Object quad).

Lemma well_formed_readable (σ : Order) (h : Heap) (d : Dataset) :
  well_formed h d -> readable h (IterQuads σ d).
Proof. intros Hwf q Hq. apply Hwf. by apply (elem_of_IterQuads σ). Qed.

Lemma readable_cons (h : Heap) (q : QuadPtr) (ch : list QuadPtr) :
  readable h (q :: ch) ->
  (exists quad : Quad, h !! q = Some quad /\
     is_Some (Subject quad) /\ is_Some (Predicate quad) /\ is_Some (Object quad)) /\
  readable h ch.
Proof.
  intros Hr. split; [apply Hr; left|]. intros k Hk. apply Hr. by right.
Qed.

Lemma One_loop_spec (h : Heap) (ch : list QuadPtr) (s p o g : option Term) :
  readable h ch ->
  exists r : option QuadPtr, One_loop h ch s p o g = Ok r /\
    match r with
    | Some q => q ∈ ch /\ exists quad, h !! q = Some quad /\ matches quad s p o g
    | None => forall q quad, q ∈ ch -> h !! q = Some quad -> ~ matches quad s p o g
    end.
Proof.
  induction ch as [|k ch IH]; intros Hr; simpl.
  - exists None. split; [done|]. intros q quad Hq. by apply elem_of_nil in Hq.
  - apply readable_cons in Hr as [(quad & Hk & Hs & Hp & Ho) Hr].
    unfold deref. rewrite Hk; simpl.
    destruct (skipped_matches quad s p o g Hs Hp Ho) as (b & -> & Hb); simpl.
    destruct b.
    + destruct (IH Hr) as (r & -> & Hspec). exists r. split; [done|].
      destruct r as [q|].
      * destruct Hspec as [Hin Hm]. split; [by right | done].
      * intros q quad' [->|Hin]%elem_of_cons Hq.
        -- rewrite Hk in Hq. injection Hq as <-. intros Hm. apply Hb in Hm. discriminate Hm.
        -- by apply (Hspec q).
    + exists (Some k). split; [done|]. split; [left|]. exists quad. split; [done|]. by apply Hb.
Qed.

Lemma All_loop_spec (h : Heap) (ch : list QuadPtr) (s p o g : option Term)
    (found : list QuadPtr) :
  readable h ch ->
  exists l : list QuadPtr, All_loop h ch s p o g found = Ok (found ++ l) /\
    sublist l ch /\
    forall q, q ∈ l <-> q ∈ ch /\ exists quad, h !! q = Some quad /\ matches quad s p o g.
Proof.
  revert found. induction ch as [|k ch IH]; intros found Hr; simpl.
  - exists []. rewrite app_nil_r. split; [done|]. split; [done|].
    intros q. rewrite elem_of_nil. tauto.
  - apply readable_cons in Hr as [(quad & Hk & Hs & Hp & Ho) Hr].
    unfold deref. rewrite Hk; simpl.
    destruct (skipped_matches quad s p o g Hs Hp Ho) as (b & -> & Hb); simpl.
    destruct b.
    + destruct (IH found Hr) as (l & -> & Hsub & Hl). exists l. split; [done|].
      split; [by apply sublist_cons|]. intros q. rewrite Hl, elem_of_cons.
      split; [intros [? ?]; tauto|]. intros [[->|Hin] (quad' & Hq & Hm)].
      * rewrite Hk in Hq. injection Hq as <-. apply Hb in Hm. discriminate Hm.
      * split; [done|]. by exists quad'.
    + destruct (IH (found ++ [k]) Hr) as (l & -> & Hsub & Hl). exists (k :: l).
      split; [by rewrite <- app_assoc|]. split; [by apply sublist_skip|].
      intros q. rewrite !elem_of_cons, Hl. split.
      * intros [->|[Hin Hm]]; [|tauto]. split; [by left|]. exists quad.
        split; [done|]. by apply Hb.
      * intros [[->|Hin] Hm]; [by left | right; tauto].
Qed.

Lemma NewDataset_well_formed (h : Heap) (u : string) : well_formed h (NewDataset u).
Proof. intros q [v Hv]. simpl in Hv. by rewrite lookup_empty in Hv. Qed.

Lemma AddQuad_well_formed (h : Heap) (d : Dataset) (s p o : Term) (g : option Term) :
  well_formed h d ->
  well_formed (AddQuad h d (Some s) (Some p) (Some o) g).1
              (AddQuad h d (Some s) (Some p) (Some o) g).2.
Proof.
  intros Hwf k. rewrite AddQuad_eq; simpl.
  destruct (decide (length h = k)) as [<-|Hne].
  - intros _. exists (mkQuad (Some s) (Some p) (Some o) g). simpl.
    split; [by apply list_lookup_middle | eauto].
  - rewrite lookup_insert_ne by done. intros Hk.
    destruct (Hwf k Hk) as (quad & Hq & Hrest). exists quad. split; [|done].
    by apply lookup_app_l_Some.
Qed.

(** The triple [a b c] in the default graph and again in the graph [g]. *)
Definition both_graphs : store :=
  AddQuad (AddTriple [] (NewDataset testDatasetUri) rA rB rC).1
          (AddTriple [] (NewDataset testDatasetUri) rA rB rC).2 rA rB rC rG.

Lemma both_graphs_well_formed : well_formed both_graphs.1 both_graphs.2.
Proof.
  apply (AddQuad_well_formed _ _ (Resource "a") (Resource "b") (Resource "c")).
  apply (AddQuad_well_formed _ _ (Resource "a") (Resource "b") (Resource "c")).
  apply NewDataset_well_formed.
Qed.

(** C5, as stated, fails: the quad at address 0 is stored with a nil graph,
    and [One] asked for its subject, predicate and object in the graph [g]
    returns the quad at address 1 instead of the no-match result. *)
Lemma One_finds_the_named_twin :
  quads both_graphs.2 !! 0 = Some true /\
  both_graphs.1 !! 0 = Some (mkQuad rA rB rC None) /\
  One in_order both_graphs.1 both_graphs.2 rA rB rC rG = Ok (Some 1) /\
  One reversed both_graphs.1 both_graphs.2 rA rB rC rG = Ok (Some 1).
Proof. vm_compute. repeat split. Qed.

(** C5 (amended): in a dataset whose stored quads have their three terms,
    let [q] be a stored quad. If its graph is nil, [One] with its subject,
    predicate and object and a nil graph returns a stored quad with these
    three terms and a nil graph, while with a graph [gt] it returns some
    result other than [q], and the no-match result when no stored quad has
    these terms in graph [gt]. Whatever the pattern, [One] returns a stored
    quad or the no-match result; it returns [q] only if [q] matches the
    pattern, the graph compared as it stands (nil with nil only), and the
    no-match result only if [q] does not match. [All] returns stored
    quads, none twice, and [q] among them exactly when it matches. A nil
    subject, predicate or object of the pattern is a wild card. *)
Theorem One_graph_is_not_a_wild_card (σ : Order) (h : Heap) (d : Dataset)
    (q : QuadPtr) (quad : Quad) :
  well_formed h d -> is_Some (quads d !! q) -> h !! q = Some quad ->
  (Graph quad = None ->
     (exists (q' : QuadPtr) (quad' : Quad),
        One σ h d (Subject quad) (Predicate quad) (Object quad) None = Ok (Some q') /\
        is_Some (quads d !! q') /\ h !! q' = Some quad' /\
        matches quad' (Subject quad) (Predicate quad) (Object quad) None) /\
     (forall gt : Term, exists r : option QuadPtr,
        One σ h d (Subject quad) (Predicate quad) (Object quad) (Some gt) = Ok r /\
        r <> Some q /\
        ((forall k quad', is_Some (quads d !! k) -> h !! k = Some quad' ->
            ~ matches quad' (Subject quad) (Predicate quad) (Object quad) (Some gt)) ->
         r = None))) /\
  (forall s p o g, exists r : option QuadPtr,
     One σ h d s p o g = Ok r /\
     (forall q' : QuadPtr, r = Some q' -> is_Some (quads d !! q')) /\
     (r = Some q -> matches quad s p o g) /\
     (r = None -> ~ matches quad s p o g)) /\
  (forall s p o g, exists l : list QuadPtr,
     All σ h d s p o g = Ok l /\ NoDup l /\
     (forall q' : QuadPtr, q' ∈ l -> is_Some (quads d !! q')) /\
     (q ∈ l <-> matches quad s p o g)).
Proof.
  intros Hwf Hq Hquad.
  pose proof (well_formed_readable σ h d Hwf) as Hr.
  assert (Hone : forall s p o g, exists r, One σ h d s p o g = Ok r /\
            match r with
            | Some k => is_Some (quads d !! k) /\
                        exists quad', h !! k = Some quad' /\ matches quad' s p o g
            | None => forall k quad', is_Some (quads d !! k) -> h !! k = Some quad' ->
                        ~ matches quad' s p o g
            end).
  { intros s p o g. destruct (One_loop_spec h _ s p o g Hr) as (r & Hrun & Hspec).
    exists r. split; [done|]. destruct r as [k|].
    - destruct Hspec as [Hin Hm]. split; [by apply (elem_of_IterQuads σ) | done].
    - intros k quad' Hk. apply Hspec. by apply elem_of_IterQuads. }
  split; [intros Hnil; split|split].
  - destruct (Hone (Subject quad) (Predicate quad) (Object quad) None)
      as (r & Hrun & Hspec).
    destruct r as [k|].
    + destruct Hspec as (Hk & quad' & Hk' & Hm). by exists k, quad'.
    + exfalso. apply (Hspec q quad Hq Hquad). unfold matches, wild. tauto.
  - intros gt.
    destruct (Hone (Subject quad) (Predicate quad) (Object quad) (Some gt))
      as (r & Hrun & Hspec).
    exists r. split; [done|]. split.
    + intros ->. destruct Hspec as (_ & quad' & Hk' & Hm).
      rewrite Hquad in Hk'. injection Hk' as <-.
      destruct Hm as (_ & _ & _ & Hg). congruence.
    + intros Hno. destruct r as [k|]; [|done]. exfalso.
      destruct Hspec as (Hk & quad' & Hk' & Hm). by apply (Hno k quad').
  - intros s p o g. destruct (Hone s p o g) as (r & Hrun & Hspec).
    exists r. split; [done|]. split; [|split].
    + intros q' ->. by destruct Hspec as [Hq' _].
    + intros ->. destruct Hspec as (_ & quad' & Hk' & Hm).
      rewrite Hquad in Hk'. by injection Hk' as <-.
    + intros ->. by apply (Hspec q quad).
  - intros s p o g. destruct (All_loop_spec h _ s p o g [] Hr) as (l & Hrun & Hsub & Hl).
    exists l. split; [done|]. split; [|split].
    + eapply sublist_NoDup; [apply NoDup_IterQuads | exact Hsub].
    + intros q' Hq'. apply Hl in Hq' as [Hq' _]. by apply (elem_of_IterQuads σ).
    + rewrite Hl, elem_of_IterQuads. split.
      * intros (_ & quad' & Hk' & Hm). rewrite Hquad in Hk'. by injection Hk' as <-.
      * intros Hm. split; [done|]. by exists quad.
Qed.

Lemma One_graph_is_not_a_wild_card_witness :
  well_formed both_graphs.1 both_graphs.2 /\
  is_Some (quads both_graphs.2 !! 0) /\
  both_graphs.1 !! 0 = Some (mkQuad rA rB rC None) /\
  (forall gt : Term, exists r : option QuadPtr,
     One in_order both_graphs.1 both_graphs.2 rA rB rC (Some gt) = Ok r /\
     r <> Some 0 /\
     ((forall k quad', is_Some (quads both_graphs.2 !! k) ->
         both_graphs.1 !! k = Some quad' ->
         ~ matches quad' rA rB rC (Some gt)) ->
      r = None)).
Proof.
  split; [apply both_graphs_well_formed|].
  split; [by exists true|].
  split; [reflexivity|].
  exact (proj2 (proj1
    (One_graph_is_not_a_wild_card in_order both_graphs.1 both_graphs.2 0
       (mkQuad rA rB rC None) both_graphs_well_formed
       (ex_intro _ true eq_refl) eq_refl) eq_refl)).
Defined.

(** ** The flat serialization *)

Definition join_all (l : list string) : string := foldr String.append EmptyString l.

(** One line of the flat format: the encodings of the terms separated by
    single spaces, the graph only when there is one, then a space, a full
    stop and a line feed. *)
Definition flat_line (s p o : Term) (g : option Term) : string :=
  Term_String s +:+ " " +:+ Term_String p +:+ " " +:+ Term_String o +:+
  match g with
  | Some gt => " " +:+ Term_String gt
  | None => EmptyString
  end +:+ " ." +:+ strings.LF.

(** What the flat writers emit for the quad at [q]. *)
Definition flat_row (h : Heap) (q : QuadPtr) : string :=
  match h !! q with
  | Some quad => Quad_String quad +:+ strings.LF
  | None => EmptyString
  end.

Lemma append_assoc (a b c : string) : (a +:+ b) +:+ c = a +:+ (b +:+ c).
Proof.
  induction a as [|x a' IH]; [done|].
  change (String x ((a' +:+ b) +:+ c) = String x (a' +:+ (b +:+ c))). by f_equal.
Qed.

Lemma append_nil_r (a : string) : a +:+ EmptyString = a.
Proof.
  induction a as [|x a' IH]; [done|].
  change (String x (a' +:+ EmptyString) = String x a'). by f_equal.
Qed.

Lemma Quad_String_flat (s p o : Term) (g : option Term) :
  Quad_String (mkQuad (Some s) (Some p) (Some o) g) +:+ strings.LF = flat_line s p o g.
Proof.
  unfold Quad_String, flat_line; simpl. destruct g as [gt|]; simpl;
    by rewrite ?append_assoc.
Qed.

Lemma String_loop_rows (h : Heap) (ch : list QuadPtr) (acc : string) :
  readable h ch ->
  String_loop h ch acc = Ok (acc +:+ join_all (map (flat_row h) ch)).
Proof.
  revert acc. induction ch as [|k ch IH]; intros acc Hr; simpl.
  - by rewrite append_nil_r.
  - apply readable_cons in Hr as [(quad & Hk & _) Hr].
    unfold deref, flat_row at 1. rewrite Hk; simpl.
    rewrite IH by done. by rewrite append_assoc.
Qed.

Lemma serializeNQuads_loop_rows (h : Heap) (ch : list QuadPtr) (w : Writer) :
  readable h ch ->
  serializeNQuads_loop h ch w = Ok (w +:+ join_all (map (flat_row h) ch)).
Proof.
  revert w. induction ch as [|k ch IH]; intros w Hr; simpl.
  - by rewrite append_nil_r.
  - apply readable_cons in Hr as [(quad & Hk & _) Hr].
    unfold deref, flat_row at 1, Fprintln. rewrite Hk; simpl.
    rewrite IH by done. by rewrite !append_assoc.
Qed.

(** The flat writer on a channel of allocated pointers, whatever terms the
    quads have, and on a channel with a pointer that gives no quad. *)
Lemma serializeNQuads_loop_flat_rows (h : Heap) (ch : list QuadPtr) (w : Writer) :
  (forall q : QuadPtr, q ∈ ch -> q < length h) ->
  serializeNQuads_loop h ch w = Ok (w +:+ join_all (map (flat_row h) ch)).
Proof.
  revert w. induction ch as [|k ch IH]; intros w Hch; simpl.
  - by rewrite append_nil_r.
  - assert (Hk : k < length h) by (apply Hch; left).
    unfold deref, flat_row at 1, Fprintln.
    destruct (h !! k) as [quad|] eqn:Hquad; simpl.
    + rewrite IH by (intros q Hq; apply Hch; by right).
      by rewrite !append_assoc.
    + apply lookup_ge_None in Hquad. lia.
Qed.

Lemma serializeNQuads_loop_nil_pointer (h : Heap) (ch : list QuadPtr) (w : Writer)
    (q : QuadPtr) :
  q ∈ ch -> h !! q = None -> serializeNQuads_loop h ch w = Panic.
Proof.
  intros Hq Hnil. revert w. induction ch as [|k ch IH]; intros w; simpl.
  - by apply elem_of_nil in Hq.
  - unfold deref. apply elem_of_cons in Hq as [<-|Hq].
    + by rewrite Hnil.
    + destruct (h !! k); simpl; [by apply IH | done].
Qed.

Lemma IterQuads_added_once (σ : Order) : IterQuads σ added_once.2 = [0].
Proof. apply Permutation_singleton_r. apply (IterQuads_perm σ added_once.2). Qed.

(** C8: the flat format writes, for each stored quad, the canonical
    encodings of subject, predicate and object separated by single spaces,
    then the encoding of the graph if the quad has one, then a space, a
    full stop and a line feed; the quad [<a> <b> <c> <g>] alone yields
    exactly the line [<a> <b> <c> <g> .] and a line feed. *)
Theorem flat_serialization_lines (σ : Order) (h : Heap) (d : Dataset) (w : Writer) :
  well_formed h d ->
  Dataset_String σ h d = Ok (join_all (map (flat_row h) (IterQuads σ d))) /\
  serializeNQuads σ h d w
    = Ok (w +:+ join_all (map (flat_row h) (IterQuads σ d)), None) /\
  (forall q : QuadPtr, is_Some (quads d !! q) ->
     exists (s p o : Term) (g : option Term),
       h !! q = Some (mkQuad (Some s) (Some p) (Some o) g) /\
       flat_row h q = flat_line s p o g) /\
  Dataset_String σ added_once.1 added_once.2
    = Ok ("<a> <b> <c> <g> ." +:+ strings.LF) /\
  serializeNQuads σ added_once.1 added_once.2 EmptyString
    = Ok ("<a> <b> <c> <g> ." +:+ strings.LF, None).
Proof.
  intros Hwf. pose proof (well_formed_readable σ h d Hwf) as Hr.
  split; [|split; [|split; [|split]]].
  - unfold Dataset_String. by rewrite String_loop_rows.
  - unfold serializeNQuads. by rewrite serializeNQuads_loop_rows.
  - intros q Hq. destruct (Hwf q Hq) as (quad & Hk & [s Hs] & [p Hp] & [o Ho]).
    destruct quad as [qs qp qo g]; simpl in *; subst.
    exists s, p, o, g. split; [done|]. unfold flat_row. rewrite Hk.
    apply Quad_String_flat.
  - unfold Dataset_String. by rewrite IterQuads_added_once.
  - unfold serializeNQuads. by rewrite IterQuads_added_once.
Qed.

Lemma flat_serialization_lines_witness :
  well_formed added_once.1 added_once.2 /\
  Dataset_String reversed added_once.1 added_once.2
    = Ok ("<a> <b> <c> <g> ." +:+ strings.LF).
Proof.
  assert (Hwf : well_formed added_once.1 added_once.2).
  { apply (AddQuad_well_formed _ _ (Resource "a") (Resource "b") (Resource "c")).
    apply NewDataset_well_formed. }
  split; [exact Hwf|].
  exact (proj1 (proj2 (proj2 (proj2
    (flat_serialization_lines reversed added_once.1 added_once.2 EmptyString Hwf))))).
Defined.

(** ** Dispatch on the mime type *)

(** Stand-ins for the collaborators, to run the bridge on examples: a
    Turtle parser that rejects any text with a question mark and reads any
    other text as one triple about it, a JSON-LD processor that yields one
    triple for any text but the empty one, and a JSON-LD writer that writes
    an empty object. *)
Definition stub : External := {|
  turtle_Parse := fun base content =>
    if strings.Contains content "?" then ParseError "syntax error"
    else Triples [(NewResource (base +:+ content), rB, rC)];
  jsonData := string;
  jsonld_ReadJSON := fun text =>
    if String.eqb text EmptyString then inl "unexpected end of JSON input"
    else inr text;
  jsonld_ToRDF := fun j options =>
    Triples [(NewResource (Base options +:+ j), rB, rC)];
  serializeJSONLD := fun _ _ _ w => Ok (w +:+ "{}", None)
|}.

Lemma index_missing (m : gmap string string) (key : string) :
  m !! key = None -> index m key = EmptyString.
Proof. unfold index. by intros ->. Qed.

(** C4, as stated, fails for [Serialize]: [application/n-quads] has no
    registered serializer, and the call succeeds and writes the flat
    format. *)
Lemma Serialize_falls_back_to_NQuads :
  mimeSerializer !! "application/n-quads" = None /\
  @Serialize stub in_order added_once.1 added_once.2 EmptyString "application/n-quads"
    = Ok ("<a> <b> <c> <g> ." +:+ strings.LF, None).
Proof. vm_compute. split; reflexivity. Qed.

(** C4 (amended): [Parse] with a mime type that is not a key of the parser
    registry returns an error and leaves the dataset as it was. [Serialize]
    with a mime type that is not a key of the serializer registry is the
    flat N-Quads writer: on a dataset whose stored pointers all point to
    quads it returns no error and writes, for every stored quad, the text
    of the quad and a line feed, which is the flat line when the quad has
    its three terms; when a stored pointer gives no quad, it panics. *)
Theorem unregistered_mime_types `{External} (σ : Order) (st : store)
    (reader : string) (w : Writer) (mime : string) :
  (mimeParser !! mime = None ->
     Parse st reader mime = (st, Some "guess is not supported by the parser")) /\
  (mimeSerializer !! mime = None ->
     Serialize σ st.1 st.2 w mime = serializeNQuads σ st.1 st.2 w /\
     (allocated st.1 st.2 ->
        Serialize σ st.1 st.2 w mime
          = Ok (w +:+ join_all (map (flat_row st.1) (IterQuads σ st.2)), None)) /\
     (forall q : QuadPtr, is_Some (quads st.2 !! q) -> st.1 !! q = None ->
        Serialize σ st.1 st.2 w mime = Panic) /\
     (forall (q : QuadPtr) (s p o : Term) (g : option Term),
        st.1 !! q = Some (mkQuad (Some s) (Some p) (Some o) g) ->
        flat_row st.1 q = flat_line s p o g)).
Proof.
  split.
  - intros Hmime. unfold Parse. by rewrite (index_missing _ _ Hmime).
  - intros Hmime.
    assert (Hflat : Serialize σ st.1 st.2 w mime = serializeNQuads σ st.1 st.2 w).
    { unfold Serialize. by rewrite (index_missing _ _ Hmime). }
    split; [done|]. rewrite Hflat. unfold serializeNQuads. split; [|split].
    + intros Ha. rewrite serializeNQuads_loop_flat_rows; [done|].
      intros q Hq. apply Ha. by apply (elem_of_IterQuads σ).
    + intros q Hq Hnil.
      rewrite (serializeNQuads_loop_nil_pointer _ _ _ q); [done | | done].
      by apply elem_of_IterQuads.
    + intros q s p o g Hq. unfold flat_row. rewrite Hq. apply Quad_String_flat.
Qed.

Lemma unregistered_mime_types_witness :
  mimeParser !! "application/n-quads" = None /\
  mimeSerializer !! "application/n-quads" = None /\
  allocated added_once.1 added_once.2 /\
  @Parse stub added_once "<a> <b> <c> ." "application/n-quads"
    = (added_once, Some "guess is not supported by the parser") /\
  @Serialize stub in_order added_once.1 added_once.2 EmptyString "application/n-quads"
    = Ok ("<a> <b> <c> <g> ." +:+ strings.LF, None).
Proof.
  assert (Ha : allocated added_once.1 added_once.2).
  { apply AddQuad_allocated, NewDataset_allocated. }
  split; [reflexivity|]. split; [reflexivity|]. split; [exact Ha|].
  pose proof (@unregistered_mime_types stub in_order added_once
                "<a> <b> <c> ." EmptyString "application/n-quads") as [Hp Hs].
  split; [exact (Hp eq_refl)|].
  exact (proj1 (proj2 (Hs eq_refl)) Ha).
Defined.

(** ** JSON-LD input goes to the default graph *)

Definition default_quad (t : triple) : Quad :=
  let '(s, p, o) := t in mkQuad s p o None.

Lemma add_triples_eq (ts : list triple) (st : store) :
  add_triples st ts
  = (st.1 ++ map default_quad ts, foldl Add st.2 (seq (length st.1) (length ts))).
Proof.
  unfold add_triples. revert st. induction ts as [|[[s p] o] ts IH]; intros [h d]; simpl.
  - by rewrite app_nil_r.
  - rewrite IH, AddTriple_eq, AddQuad_eq; simpl.
    rewrite <- app_assoc, length_app; simpl.
    by rewrite Nat.add_1_r.
Qed.

Lemma default_quads_nil_graph (ts : list triple) (i : nat) (quad : Quad) :
  map default_quad ts !! i = Some quad -> Graph quad = None.
Proof.
  intros Hi. apply list_elem_of_lookup_2, list_elem_of_fmap in Hi.
  destruct Hi as ([[s p] o] & -> & _). reflexivity.
Qed.

(** C7: when [Parse] of JSON-LD input succeeds, the triples are those the
    processor returns under the options with an empty base and generalized
    RDF off; each is stored in a newly allocated quad whose graph is nil,
    and the dataset gains these quads and no other. *)
Theorem Parse_jsonld_fills_default_graph `{External} (st st' : store)
    (reader : string) :
  Parse st reader "application/ld+json" = (st', None) ->
  exists (j : jsonData) (ts : list triple),
    jsonld_ReadJSON reader = inr j /\
    jsonld_ToRDF j (mkOptions EmptyString false) = Triples ts /\
    st'.1 = st.1 ++ map default_quad ts /\
    (forall q : QuadPtr, is_Some (quads st'.2 !! q) <->
       is_Some (quads st.2 !! q) \/ length st.1 <= q < length st.1 + length ts) /\
    (forall (q : QuadPtr) (quad : Quad),
       length st.1 <= q -> st'.1 !! q = Some quad -> Graph quad = None).
Proof.
  unfold Parse.
  change (index mimeParser "application/ld+json") with "jsonld"; simpl.
  destruct (jsonld_ReadJSON reader) as [err|j]; [discriminate|].
  destruct (jsonld_ToRDF j (mkOptions EmptyString false)) as [err|ts] eqn:Hts;
    [discriminate|].
  intros [= <-]. exists j, ts. rewrite add_triples_eq; simpl.
  split; [done|]. split; [done|]. split; [done|]. split.
  - intros q. rewrite foldl_Add_lookup, elem_of_seq. tauto.
  - intros q quad Hq Hlook. apply lookup_app_Some in Hlook as [Hold|[_ Hnew]].
    + apply lookup_lt_Some in Hold. lia.
    + by eapply default_quads_nil_graph.
Qed.

(** The store after the JSON-LD text of an empty object is parsed with the
    stand-in processor into [added_once]. *)
Definition jsonld_parsed : store :=
  AddTriple added_once.1 added_once.2 (NewResource "{}") rB rC.

Lemma Parse_jsonld_fills_default_graph_witness :
  @Parse stub added_once "{}" "application/ld+json" = (jsonld_parsed, None) /\
  (forall (q : QuadPtr) (quad : Quad),
     1 <= q -> jsonld_parsed.1 !! q = Some quad -> Graph quad = None).
Proof.
  split; [reflexivity|].
  destruct (@Parse_jsonld_fills_default_graph stub added_once jsonld_parsed
              "{}" eq_refl) as (j & ts & _ & _ & _ & _ & Hnil).
  exact Hnil.
Defined.

(** ** The TriG scanner *)

(** A statement group: the lines handed to [processTripleLines] in one
    call, and the graph current at that time. *)
Definition group : Type := list string * option Term.

(** The loop variables of [parseTrig] that do not depend on the parser,
    and the groups handed over so far. *)
Record trace : Type := mkTrace {
  at_graph : option Term;
  pending : list string;
  emitted : list group
}.

(** The loop body of [parseTrig] with each call of [processTripleLines]
    recorded instead of run. *)
Definition scan_line (tr : trace) (line : string) : trace :=
  let line := strings.TrimSpace line in
  if String.eqb line EmptyString || strings.HasPrefix line "#" then tr
  else if strings.HasPrefix line "@prefix" then tr
  else if strings.Contains line "{" then
    let parts := strings.Split line "{"%char in
    if (1 <? length parts)%nat then
      let graphPart := strings.TrimSpace (nth 0 parts EmptyString) in
      if String.eqb graphPart EmptyString
      then mkTrace None (pending tr) (emitted tr)
      else mkTrace (parseGraphName graphPart) (pending tr) (emitted tr)
    else tr
  else if strings.Contains line "}" then
    if (0 <? length (pending tr))%nat
    then mkTrace None [] (emitted tr ++ [(pending tr, at_graph tr)])
    else mkTrace None (pending tr) (emitted tr)
  else if negb (String.eqb line EmptyString) then
    let lines := pending tr ++ [line] in
    if strings.HasSuffix line "."
    then mkTrace (at_graph tr) [] (emitted tr ++ [(lines, at_graph tr)])
    else mkTrace (at_graph tr) lines (emitted tr)
  else tr.

(** The statement groups of a document, in the order [parseTrig] meets
    them; lines left pending at the end form a last group. *)
Definition statement_groups (reader : string) : list group :=
  let tr := foldl scan_line (mkTrace None [] []) (strings.Split reader "010"%char) in
  if (0 <? length (pending tr))%nat
  then emitted tr ++ [(pending tr, at_graph tr)]
  else emitted tr.

(** [processTripleLines] on each group in turn. *)
Definition run `{External} (st : store) (gs : list group) : store :=
  foldl (fun (st : store) (g : group) => processTripleLines st g.1 g.2) st gs.

(** Whether the Turtle parser accepts the text of a group. *)
Definition parses `{External} (base : string) (g : group) : bool :=
  match turtle_Parse base (strings.Join g.1 strings.LF) with
  | Triples _ => true
  | ParseError _ => false
  end.

(** The dataset stores a pointer to the quad value [quad]. *)
Definition holds (st : store) (quad : Quad) : Prop :=
  exists q : QuadPtr, is_Some (quads st.2 !! q) /\ st.1 !! q = Some quad.

Section Scanner.
Context `{External}.

(** The scanner of [parseTrig] and its trace move in step. *)
Definition in_step (st0 : store) (tr : trace) (sc : scanner) : Prop :=
  currentGraph sc = at_graph tr /\
  currentTripleLines sc = pending tr /\
  current sc = run st0 (emitted tr).

Lemma run_snoc (st : store) (gs : list group) (g : group) :
  run st (gs ++ [g]) = processTripleLines (run st gs) g.1 g.2.
Proof. unfold run. by rewrite foldl_app. Qed.

Lemma in_step_line (st0 : store) (tr : trace) (sc : scanner) (line : string) :
  in_step st0 tr sc -> in_step st0 (scan_line tr line) (parseTrig_line sc line).
Proof.
  destruct tr as [g ls gs], sc as [g' ls' st]. unfold in_step; simpl.
  intros (-> & -> & ->). unfold scan_line, parseTrig_line; simpl.
  repeat match goal with
         | |- context [if ?b then _ else _] => destruct b
         end; simpl; rewrite ?run_snoc; done.
Qed.

Lemma in_step_lines (st0 : store) (lines : list string) (tr : trace) (sc : scanner) :
  in_step st0 tr sc ->
  in_step st0 (foldl scan_line tr lines) (foldl parseTrig_line sc lines).
Proof.
  revert tr sc. induction lines as [|line lines IH]; intros tr sc Hstep; simpl.
  - done.
  - apply IH. by apply in_step_line.
Qed.

Lemma parseTrig_run (st : store) (reader : string) :
  parseTrig st reader = (run st (statement_groups reader), None).
Proof.
  unfold parseTrig, statement_groups.
  pose proof (in_step_lines st (strings.Split reader "010"%char)
                (mkTrace None [] []) (mkScanner None [] st)) as Hstep.
  destruct Hstep as (Hg & Hl & Hst); [done|].
  rewrite Hg, Hl, Hst.
  destruct (0 <? length _)%nat; [by rewrite run_snoc | done].
Qed.

End Scanner.

Section Groups.
Context `{External}.

Lemma add_quads_cons (st : store) (t : triple) (ts : list triple) (g : option Term) :
  add_quads st (t :: ts) g
  = add_quads (AddQuad st.1 st.2 t.1.1 t.1.2 t.2 g) ts g.
Proof. by destruct t as [[s p] o]. Qed.

Lemma add_quads_uri (ts : list triple) (st : store) (g : option Term) :
  uri (add_quads st ts g).2 = uri st.2.
Proof.
  revert st. induction ts as [|t ts IH]; intros st; [done|].
  rewrite add_quads_cons, IH. by rewrite AddQuad_eq.
Qed.

Lemma processTripleLines_uri (st : store) (lines : list string) (g : option Term) :
  uri (processTripleLines st lines g).2 = uri st.2.
Proof.
  unfold processTripleLines. destruct (turtle_Parse _ _); [done|]. apply add_quads_uri.
Qed.

Lemma run_uri (gs : list group) (st : store) : uri (run st gs).2 = uri st.2.
Proof.
  revert st. induction gs as [|g gs IH]; intros st; [done|].
  unfold run in *; simpl. by rewrite IH, processTripleLines_uri.
Qed.

Lemma AddQuad_holds_old (st : store) (s p o g : option Term) (quad : Quad) :
  holds st quad -> holds (AddQuad st.1 st.2 s p o g) quad.
Proof.
  intros (q & Hq & Hquad). exists q. rewrite AddQuad_eq; simpl. split.
  - destruct (decide (length st.1 = q)) as [->|Hne].
    + by rewrite lookup_insert_eq.
    + by rewrite lookup_insert_ne.
  - by apply lookup_app_l_Some.
Qed.

Lemma AddQuad_holds_new (st : store) (s p o g : option Term) :
  holds (AddQuad st.1 st.2 s p o g) (mkQuad s p o g).
Proof.
  exists (length st.1). rewrite AddQuad_eq; simpl. split.
  - by rewrite lookup_insert_eq.
  - by apply list_lookup_middle.
Qed.

Lemma add_quads_holds_old (ts : list triple) (st : store) (g : option Term)
    (quad : Quad) :
  holds st quad -> holds (add_quads st ts g) quad.
Proof.
  revert st. induction ts as [|t ts IH]; intros st Hold; [done|].
  rewrite add_quads_cons. apply IH. by apply AddQuad_holds_old.
Qed.

Lemma add_quads_holds_new (ts : list triple) (st : store) (g s p o : option Term) :
  (s, p, o) ∈ ts -> holds (add_quads st ts g) (mkQuad s p o g).
Proof.
  revert st. induction ts as [|t ts IH]; intros st Hin.
  - by apply elem_of_nil in Hin.
  - rewrite add_quads_cons. apply elem_of_cons in Hin as [<-|Hin].
    + apply add_quads_holds_old. apply AddQuad_holds_new.
    + by apply IH.
Qed.

Lemma processTripleLines_holds_old (st : store) (lines : list string)
    (g : option Term) (quad : Quad) :
  holds st quad -> holds (processTripleLines st lines g) quad.
Proof.
  unfold processTripleLines. destruct (turtle_Parse _ _); [done|].
  apply add_quads_holds_old.
Qed.

Lemma run_holds_old (gs : list group) (st : store) (quad : Quad) :
  holds st quad -> holds (run st gs) quad.
Proof.
  revert st. induction gs as [|g gs IH]; intros st Hold; [done|].
  unfold run in *; simpl. apply IH. by apply processTripleLines_holds_old.
Qed.

Lemma run_app (st : store) (gs gs' : list group) :
  run st (gs ++ gs') = run (run st gs) gs'.
Proof. unfold run. by rewrite foldl_app. Qed.

Lemma processTripleLines_failed (st : store) (lines : list string)
    (g : option Term) (err : error) :
  turtle_Parse (uri st.2) (strings.Join lines strings.LF) = ParseError err ->
  processTripleLines st lines g = st.
Proof. unfold processTripleLines. by intros ->. Qed.

Lemma run_holds_group (gs : list group) (st : store) (lines : list string)
    (g : option Term) (ts : list triple) (s p o : option Term) :
  (lines, g) ∈ gs ->
  turtle_Parse (uri st.2) (strings.Join lines strings.LF) = Triples ts ->
  (s, p, o) ∈ ts ->
  holds (run st gs) (mkQuad s p o g).
Proof.
  intros Hin Hparse Ht. apply list_elem_of_split in Hin as (pre & post & ->).
  rewrite run_app. change (run (run st pre) ((lines, g) :: post))
    with (run (processTripleLines (run st pre) lines g) post).
  apply run_holds_old. unfold processTripleLines.
  rewrite run_uri, Hparse. by apply add_quads_holds_new.
Qed.

Lemma run_filter_parses (gs : list group) (st : store) :
  run st gs = run st (filter (fun g => parses (uri st.2) g = true) gs).
Proof.
  revert st. induction gs as [|g gs IH]; intros st; [done|].
  destruct (parses (uri st.2) g) eqn:Hp.
  - rewrite filter_cons_True by done.
    change (run (processTripleLines st g.1 g.2) gs
            = run (processTripleLines st g.1 g.2)
                  (filter (fun g => parses (uri st.2) g = true) gs)).
    by rewrite IH, processTripleLines_uri.
  - rewrite filter_cons_False by (by rewrite Hp).
    change (run (processTripleLines st g.1 g.2) gs
            = run st (filter (fun g => parses (uri st.2) g = true) gs)).
    unfold parses in Hp.
    destruct (turtle_Parse (uri st.2) _) as [err|ts] eqn:Hparse; [|discriminate].
    rewrite (processTripleLines_failed st g.1 g.2 err Hparse). apply IH.
Qed.

End Groups.

(** A document with a statement group the stand-in parser rejects, between
    groups it accepts. *)
Definition sample_trig : string :=
  strings.Join
    [ "{";
      "  <#me> <http://xmlns.com/foaf/0.1/name> ?bad .";
      "  <#me> <p> <q> ;";
      "     <r> <s> .";
      "}";
      "# a named graph";
      "<http://example.org/graph1> {";
      "  <#alice> <knows> <#bob> .";
      "}" ] strings.LF.

(** C6: [parseTrig] hands every statement group of the document to the
    Turtle parser, one after the other. A group the parser rejects leaves
    the dataset as it was and the scan goes on: whichever groups fail,
    every triple of a group the parser accepts is stored at the end, in a
    quad that carries the graph of its block. *)
Theorem parseTrig_drops_only_failing_groups `{External} (st : store)
    (reader : string) :
  parseTrig st reader = (run st (statement_groups reader), None) /\
  (forall (st0 : store) (lines : list string) (g : option Term) (err : error),
     turtle_Parse (uri st0.2) (strings.Join lines strings.LF) = ParseError err ->
     processTripleLines st0 lines g = st0) /\
  (forall (lines : list string) (g : option Term) (ts : list triple)
          (s p o : option Term),
     (lines, g) ∈ statement_groups reader ->
     turtle_Parse (uri st.2) (strings.Join lines strings.LF) = Triples ts ->
     (s, p, o) ∈ ts ->
     holds (parseTrig st reader).1 (mkQuad s p o g)).
Proof.
  split; [apply parseTrig_run|]. split.
  - intros st0 lines g err. apply processTripleLines_failed.
  - intros lines g ts s p o Hin Hparse Ht. rewrite parseTrig_run; simpl.
    by eapply run_holds_group.
Qed.

Lemma parseTrig_drops_only_failing_groups_witness :
  (["<#me> <http://xmlns.com/foaf/0.1/name> ?bad ."], None)
    ∈ statement_groups sample_trig /\
  @turtle_Parse stub "u:" "<#me> <http://xmlns.com/foaf/0.1/name> ?bad ."
    = ParseError "syntax error" /\
  (["<#alice> <knows> <#bob> ."], NewResource "http://example.org/graph1")
    ∈ statement_groups sample_trig /\
  holds (@parseTrig stub ([], NewDataset "u:") sample_trig).1
        (mkQuad (NewResource "u:<#alice> <knows> <#bob> .") rB rC
                (NewResource "http://example.org/graph1")).
Proof.
  assert (Hin : (["<#alice> <knows> <#bob> ."], NewResource "http://example.org/graph1")
                  ∈ statement_groups sample_trig)
    by (apply (list_elem_of_lookup_2 _ 2); reflexivity).
  split; [apply (list_elem_of_lookup_2 _ 0); reflexivity|].
  split; [reflexivity|]. split; [exact Hin|].
  apply (proj2 (proj2 (@parseTrig_drops_only_failing_groups stub
                         ([], NewDataset "u:") sample_trig))
           ["<#alice> <knows> <#bob> ."] (NewResource "http://example.org/graph1")
           [(NewResource "u:<#alice> <knows> <#bob> .", rB, rC)]).
  - exact Hin.
  - reflexivity.
  - apply list_elem_of_here.
Defined.

(** C10: [Parse] of TriG input returns no error, whatever the input. The
    store it leaves is the one the groups accepted by the Turtle parser
    produce: a rejected group leaves no error, no count and no other trace
    in what the caller gets back. *)
Theorem Parse_trig_never_fails `{External} (st : store) (reader : string) :
  (Parse st reader "application/trig").2 = None /\
  Parse st reader "application/trig"
    = (run st (filter (fun g => parses (uri st.2) g = true)
                 (statement_groups reader)), None).
Proof.
  assert (Hparse : Parse st reader "application/trig" = parseTrig st reader).
  { unfold Parse. by change (index mimeParser "application/trig") with "trig". }
  rewrite Hparse, parseTrig_run. split; [done|].
  by rewrite <- run_filter_parses.
Qed.

(** ** The TriG writer *)

(** The bucket of the quad at [q]: the text of its graph term, or [None]
    for the default bucket. *)
Definition graph_key (h : Heap) (q : QuadPtr) : option string :=
  match h !! q with
  | Some quad => Term_String <$> Graph quad
  | None => None
  end.

(** The pointers of a list of buckets, bucket after bucket. *)
Definition entries (bs : list (string * list QuadPtr)) : list QuadPtr :=
  foldr (fun b acc => b.2 ++ acc) [] bs.

Definition trig_row (h : Heap) (q : QuadPtr) : string :=
  match h !! q with
  | Some quad => trig_line quad
  | None => EmptyString
  end.

Definition trig_lines (h : Heap) (qs : list QuadPtr) : string :=
  join_all (map (trig_row h) qs).

(** The bare block of the default graph; nothing for an empty bucket. *)
Definition default_block (h : Heap) (qs : list QuadPtr) : string :=
  match qs with
  | [] => EmptyString
  | _ :: _ => "{" +:+ strings.LF +:+ trig_lines h qs +:+ "}" +:+ strings.LF
  end.

(** The block of a named graph: an empty line, the graph, the braces. *)
Definition named_block (h : Heap) (b : string * list QuadPtr) : string :=
  strings.LF +:+ b.1 +:+ " {" +:+ strings.LF +:+ trig_lines h b.2 +:+ "}" +:+ strings.LF.

Lemma entries_perm (bs bs' : list (string * list QuadPtr)) :
  bs ≡ₚ bs' -> entries bs ≡ₚ entries bs'.
Proof.
  induction 1 as [|b bs bs' _ IH|b b' bs|bs bs' bs'' _ IH1 _ IH2]; simpl.
  - done.
  - by rewrite IH.
  - rewrite !app_assoc. f_equiv. apply Permutation_app_comm.
  - by rewrite IH1.
Qed.

Lemma entries_insert (m : gmap string (list QuadPtr)) (name : string) (q : QuadPtr) :
  entries (map_to_list (<[name := default [] (m !! name) ++ [q]]> m))
  ≡ₚ q :: entries (map_to_list m).
Proof.
  destruct (m !! name) as [l|] eqn:Hl; simpl.
  - rewrite <- insert_delete_eq.
    rewrite (entries_perm _ _ (map_to_list_insert (delete name m) name (l ++ [q])
                                 (lookup_delete_eq m name))).
    rewrite <- (entries_perm _ _ (map_to_list_delete m name l Hl)). simpl.
    rewrite <- app_assoc. simpl. symmetry. apply Permutation_middle.
  - by rewrite (entries_perm _ _ (map_to_list_insert m name [q] Hl)).
Qed.

Lemma graph_key_readable (h : Heap) (q : QuadPtr) (quad : Quad) :
  h !! q = Some quad -> graph_key h q = Term_String <$> Graph quad.
Proof. unfold graph_key. by intros ->. Qed.

Lemma group_quads_spec (h : Heap) (ch : list QuadPtr)
    (m : gmap string (list QuadPtr)) (dflt : list QuadPtr) :
  readable h ch ->
  exists m' : gmap string (list QuadPtr),
    group_quads h ch m dflt
      = Ok (m', dflt ++ filter (fun q => graph_key h q = None) ch) /\
    (forall name : string,
       default [] (m' !! name)
       = default [] (m !! name) ++ filter (fun q => graph_key h q = Some name) ch) /\
    ((forall name l, m !! name = Some l -> l <> []) ->
     forall name l, m' !! name = Some l -> l <> []) /\
    (dflt ++ filter (fun q => graph_key h q = None) ch) ++ entries (map_to_list m')
      ≡ₚ (dflt ++ entries (map_to_list m)) ++ ch.
Proof.
  revert m dflt. induction ch as [|k ch IH]; intros m dflt Hr; simpl.
  - exists m. rewrite filter_nil, !app_nil_r. split; [done|]. split; [|done].
    intros name. by rewrite filter_nil, app_nil_r.
  - apply readable_cons in Hr as [(quad & Hk & _) Hr].
    unfold deref. rewrite Hk; simpl.
    pose proof (graph_key_readable h k quad Hk) as Hkey.
    destruct (Graph quad) as [g|] eqn:Hg; simpl in Hkey.
    + destruct (IH (<[Term_String g := default [] (m !! Term_String g) ++ [k]]> m)
                  dflt Hr) as (m' & Hrun & Hbuckets & Hfull & Hperm).
      exists m'. rewrite filter_cons_False by (rewrite Hkey; discriminate).
      split; [done|]. split; [|split].
      * intros name. rewrite Hbuckets.
        destruct (decide (Term_String g = name)) as [<-|Hne].
        -- rewrite lookup_insert_eq, filter_cons_True by done. simpl.
           by rewrite <- app_assoc.
        -- rewrite lookup_insert_ne by done.
           by rewrite filter_cons_False by (rewrite Hkey; congruence).
      * intros Hm. apply Hfull. intros name l.
        destruct (decide (Term_String g = name)) as [<-|Hne].
        -- rewrite lookup_insert_eq. intros [= <-]. by destruct (default [] _).
        -- rewrite lookup_insert_ne by done. apply Hm.
      * rewrite Hperm, entries_insert. rewrite <- !app_assoc. f_equiv.
        simpl. apply Permutation_middle.
    + destruct (IH m (dflt ++ [k]) Hr) as (m' & Hrun & Hbuckets & Hfull & Hperm).
      exists m'. rewrite filter_cons_True by done.
      replace (dflt ++ k :: filter (fun q => graph_key h q = None) ch)
        with ((dflt ++ [k]) ++ filter (fun q => graph_key h q = None) ch)
        by (by rewrite <- app_assoc).
      split; [done|]. split; [|split; [done|]].
      * intros name. rewrite Hbuckets.
        by rewrite filter_cons_False by (rewrite Hkey; discriminate).
      * rewrite Hperm. rewrite <- !app_assoc. f_equiv. simpl.
        apply Permutation_middle.
Qed.

Lemma write_lines_rows (h : Heap) (qs : list QuadPtr) (w : Writer) :
  readable h qs -> write_lines h qs w = Ok (w +:+ trig_lines h qs).
Proof.
  unfold trig_lines. revert w. induction qs as [|k qs IH]; intros w Hr; simpl.
  - by rewrite append_nil_r.
  - apply readable_cons in Hr as [(quad & Hk & _) Hr].
    unfold deref, trig_row at 1. rewrite Hk; simpl.
    rewrite IH by done. by rewrite append_assoc.
Qed.

Lemma write_named_blocks (h : Heap) (bs : list (string * list QuadPtr)) (w : Writer) :
  (forall b, b ∈ bs -> readable h b.2) ->
  write_named h bs w = Ok (w +:+ join_all (map (named_block h) bs)).
Proof.
  revert w. induction bs as [|[name qs] bs IH]; intros w Hr; simpl.
  - by rewrite append_nil_r.
  - rewrite write_lines_rows by (apply (Hr (name, qs)); left). simpl.
    rewrite IH by (intros b Hb; apply Hr; by right).
    unfold Fprintln, named_block; simpl. by rewrite !append_assoc.
Qed.

Lemma write_default_block (h : Heap) (dflt : list QuadPtr) (w : Writer) :
  readable h dflt ->
  (if (0 <? length dflt)%nat
   then let* w' := write_lines h dflt (Fprintln w "{") in Ok (Fprintln w' "}")
   else Ok w) = Ok (w +:+ default_block h dflt).
Proof.
  intros Hr. destruct dflt as [|k rest].
  - simpl. by rewrite append_nil_r.
  - change (0 <? length (k :: rest))%nat with true. cbv iota.
    rewrite write_lines_rows by done.
    unfold Fprintln, default_block, bind. by rewrite !append_assoc.
Qed.

Lemma readable_filter (h : Heap) (ch : list QuadPtr) (P : QuadPtr -> Prop)
    `{forall q, Decision (P q)} :
  readable h ch -> readable h (filter P ch).
Proof. intros Hr q Hq. apply Hr. by apply list_elem_of_filter in Hq as [_ Hq]. Qed.

(** C9: the TriG writer sorts the stored quads into a default bucket, for
    the quads whose graph is nil, and one bucket for each text of a graph
    term; no bucket of a graph is empty, and the buckets together hold
    every stored quad exactly once. It writes the default bucket first, as
    a bare block in braces and only if the bucket is not empty, then a block
    for each named bucket, headed by the text of the graph; each line of a
    block is the subject, predicate and object of one quad and a full
    stop. *)
Theorem serializeTrig_partitions_by_graph (σ : Order) (h : Heap) (d : Dataset)
    (w : Writer) :
  well_formed h d ->
  exists (graphQuads : gmap string (list QuadPtr)) (defaultGraphQuads : list QuadPtr),
    group_quads h (IterQuads σ d) ∅ [] = Ok (graphQuads, defaultGraphQuads) /\
    defaultGraphQuads = filter (fun q => graph_key h q = None) (IterQuads σ d) /\
    (forall (name : string) (l : list QuadPtr),
       graphQuads !! name = Some l <->
       l <> [] /\ l = filter (fun q => graph_key h q = Some name) (IterQuads σ d)) /\
    defaultGraphQuads ++ entries (map_to_list graphQuads) ≡ₚ keys d /\
    serializeTrig σ h d w
      = Ok (w +:+ default_block h defaultGraphQuads +:+
            join_all (map (named_block h) (shuffle σ (map_to_list graphQuads))),
            None) /\
    (forall q : QuadPtr, is_Some (quads d !! q) ->
       exists (s p o : Term) (g : option Term),
         h !! q = Some (mkQuad (Some s) (Some p) (Some o) g) /\
         graph_key h q = Term_String <$> g /\
         trig_row h q
         = "  " +:+ Term_String s +:+ " " +:+ Term_String p +:+ " " +:+
           Term_String o +:+ " ." +:+ strings.LF).
Proof.
  intros Hwf. pose proof (well_formed_readable σ h d Hwf) as Hr.
  destruct (group_quads_spec h (IterQuads σ d) ∅ [] Hr)
    as (m & Hrun & Hbuckets & Hfull & Hperm).
  simpl in Hrun, Hperm. rewrite map_to_list_empty in Hperm. simpl in Hperm.
  set (dflt := filter (fun q => graph_key h q = None) (IterQuads σ d)) in *.
  assert (Hbucket : forall name l, m !! name = Some l <->
            l <> [] /\ l = filter (fun q => graph_key h q = Some name) (IterQuads σ d)).
  { intros name l. specialize (Hbuckets name). rewrite lookup_empty in Hbuckets.
    simpl in Hbuckets. split.
    - intros Hl. split; [eapply Hfull; [|exact Hl]|].
      + intros ? ?. by rewrite lookup_empty.
      + by rewrite Hl in Hbuckets.
    - intros [Hne ->]. destruct (m !! name) as [l'|]; simpl in Hbuckets.
      + by rewrite Hbuckets.
      + by rewrite <- Hbuckets in Hne. }
  exists m, dflt. split; [done|]. split; [done|]. split; [done|]. split; [|split].
  - rewrite Hperm. apply IterQuads_perm.
  - unfold serializeTrig. rewrite Hrun; simpl.
    rewrite (write_default_block h dflt w) by (by apply readable_filter).
    simpl. rewrite write_named_blocks.
    + simpl. by rewrite append_assoc.
    + intros [name l] Hb. rewrite (shuffle_perm σ) in Hb.
      apply elem_of_map_to_list, Hbucket in Hb as [_ ->]. by apply readable_filter.
  - intros q Hq. destruct (Hwf q Hq) as (quad & Hk & [s Hs] & [p Hp] & [o Ho]).
    destruct quad as [qs qp qo g]; simpl in *; subst.
    exists s, p, o, g. split; [done|]. split.
    + by rewrite (graph_key_readable h q _ Hk).
    + unfold trig_row. by rewrite Hk.
Qed.

Lemma serializeTrig_partitions_by_graph_witness :
  well_formed both_graphs.1 both_graphs.2 /\
  serializeTrig reversed both_graphs.1 both_graphs.2 EmptyString
    = Ok (strings.Join
            [ "{"; "  <a> <b> <c> ."; "}"; EmptyString;
              "<g> {"; "  <a> <b> <c> ."; "}"; EmptyString ] strings.LF, None).
Proof.
  split; [apply both_graphs_well_formed|].
  destruct (serializeTrig_partitions_by_graph reversed both_graphs.1 both_graphs.2
              EmptyString both_graphs_well_formed)
    as (graphQuads & defaultGraphQuads & Hgroup & _ & _ & _ & Hout & _).
  injection Hgroup as <- <-. exact Hout.
Defined.

(** * The rest of the dataset code *)

(** ** Triples and graph views *)

(** [quad.ToTriple()]: the three terms, the graph left out. A [Triple] is
    read here as its three fields, the ones [NewTripleQuad] reads. *)
Definition ToTriple (quad : Quad) : triple :=
  (Subject quad, Predicate quad, Object quad).

(** [NewTripleQuad(triple)]: a quad of the default graph. *)
Definition NewTripleQuad (h : Heap) (t : triple) : Heap * QuadPtr :=
  (h ++ [mkQuad t.1.1 t.1.2 t.2 None], length h).

(** The [Graph] type is defined in a file that is not among the sources;
    [GetGraph] only creates a graph and adds triples to it. *)
Class Graphs : Type := {
  Graph_ : Type;
  NewGraph : string -> Graph_;
  Graph_Add : Graph_ -> triple -> Graph_
}.

(** The loop of [GetGraph]. [graphName.Equal(quad.Graph)] has the graph
    name as its receiver, which is not nil where it is called. *)
Fixpoint GetGraph_loop `{Graphs} (h : Heap) (ch : list QuadPtr)
    (graphName : option Term) (g : Graph_) : result Graph_ :=
  match ch with
  | [] => Ok g
  | q :: rest =>
      let* quad := deref h q in
      match graphName, Graph quad with
      | None, None => GetGraph_loop h rest graphName (Graph_Add g (ToTriple quad))
      | Some name, Some _ =>
          if Term_Equal name (Graph quad)
          then GetGraph_loop h rest graphName (Graph_Add g (ToTriple quad))
          else GetGraph_loop h rest graphName g
      | _, _ => GetGraph_loop h rest graphName g
      end
  end.

Definition GetGraph `{Graphs} (σ : Order) (h : Heap) (d : Dataset)
    (graphName : option Term) : result Graph_ :=
  GetGraph_loop h (IterQuads σ d) graphName (NewGraph (uri d)).

Definition GetDefaultGraph `{Graphs} (σ : Order) (h : Heap) (d : Dataset)
  : result Graph_ :=
  GetGraph σ h d None.

(** The first loop of [GetNamedGraphs]: the graph terms, keyed by their
    text; a later quad overwrites the entry of an earlier one. *)
Fixpoint graph_names (h : Heap) (ch : list QuadPtr) (graphNames : gmap string Term)
  : result (gmap string Term) :=
  match ch with
  | [] => Ok graphNames
  | q :: rest =>
      let* quad := deref h q in
      match Graph quad with
      | Some g => graph_names h rest (<[Term_String g := g]> graphNames)
      | None => graph_names h rest graphNames
      end
  end.

(** [GetNamedGraphs]; the terms of the result are never nil, and the nil
    slice is the empty list. *)
Definition GetNamedGraphs (σ : Order) (h : Heap) (d : Dataset) : result (list Term) :=
  let* graphNames := graph_names h (IterQuads σ d) ∅ in
  Ok (map snd (shuffle σ (map_to_list graphNames))).

(** ** JSON-LD values of terms *)

(** [termToJSONLDID]; the type switch of a nil term falls to the default
    case, which calls [String] on it. *)
Definition termToJSONLDID (term : option Term) : result string :=
  match term with
  | Some (Resource uri) => Ok uri
  | Some (BlankNode id) => Ok ("_:" +:+ id)
  | Some t => Ok (Term_String t)
  | None => Panic
  end.

(** [termToJSONLDValue]. The three variants return a [map[string]string];
    the default case, reached by a nil term only, calls [String] on it. *)
Definition termToJSONLDValue (term : option Term) : result (gmap string string) :=
  match term with
  | Some (Resource uri) => Ok {[ "@id" := uri ]}
  | Some (BlankNode id) => Ok {[ "@id" := "_:" +:+ id ]}
  | Some (Literal value lang datatype) =>
      let r : gmap string string := {[ "@value" := value ]} in
      let r := if (0 <? String.length lang)%nat then <["@language" := lang]> r else r in
      match datatype with
      | Some _ =>
          let* id := termToJSONLDID datatype in
          Ok (<["@type" := id]> r)
      | None => Ok r
      end
  | None => Panic
  end.

(** ** [Quad.Equal] *)

Lemma Term_Equal_decide (t : Term) (other : option Term) :
  Term_Equal t other = bool_decide (other = Some t).
Proof. apply eq_true_iff_eq. by rewrite Term_Equal_Some, bool_decide_eq_true. Qed.

(** X1: on a quad that has its three terms, [Equal] panics on a nil
    pointer and, on any other, returns and decides equality of the four
    terms, a nil graph being equal to a nil graph only; between two such
    quads it gives the same answer both ways. *)
Theorem Quad_Equal_decides (quad other : Quad) :
  is_Some (Subject quad) -> is_Some (Predicate quad) -> is_Some (Object quad) ->
  Quad_Equal quad None = Panic /\
  (exists b : bool,
     Quad_Equal quad (Some other) = Ok b /\ (b = true <-> quad = other)) /\
  (is_Some (Subject other) -> is_Some (Predicate other) -> is_Some (Object other) ->
   Quad_Equal other (Some quad) = Quad_Equal quad (Some other)).
Proof.
  assert (Hdec : forall q1 q2 : Quad,
            is_Some (Subject q1) -> is_Some (Predicate q1) -> is_Some (Object q1) ->
            Quad_Equal q1 (Some q2) = Ok (bool_decide (q1 = q2))).
  { intros [s1 p1 o1 g1] [s2 p2 o2 g2] [s Hs] [p Hp] [o Ho]; simpl in *; subst.
    unfold Quad_Equal; simpl. rewrite !Term_Equal_decide; simpl.
    destruct (decide (s2 = Some s)) as [->|Hns].
    2:{ rewrite (bool_decide_eq_false_2 _ Hns); simpl.
        rewrite bool_decide_eq_false_2 by congruence. by destruct g1, g2. }
    rewrite (bool_decide_eq_true_2 _ eq_refl); simpl.
    destruct (decide (p2 = Some p)) as [->|Hnp].
    2:{ rewrite (bool_decide_eq_false_2 _ Hnp); simpl.
        rewrite bool_decide_eq_false_2 by congruence. by destruct g1, g2. }
    rewrite (bool_decide_eq_true_2 _ eq_refl); simpl.
    destruct (decide (o2 = Some o)) as [->|Hno].
    2:{ rewrite (bool_decide_eq_false_2 _ Hno); simpl.
        rewrite bool_decide_eq_false_2 by congruence. by destruct g1, g2. }
    rewrite (bool_decide_eq_true_2 _ eq_refl); simpl.
    destruct g1 as [t1|], g2 as [t2|]; simpl; rewrite ?Term_Equal_decide.
    - destruct (decide (t2 = t1)) as [->|Hnt].
      + by rewrite !bool_decide_eq_true_2.
      + rewrite !bool_decide_eq_false_2; [done | congruence | congruence].
    - by rewrite bool_decide_eq_false_2.
    - by rewrite bool_decide_eq_false_2.
    - by rewrite bool_decide_eq_true_2. }
  intros Hs Hp Ho. split; [done|]. split.
  - exists (bool_decide (quad = other)). split; [by apply Hdec|].
    apply bool_decide_eq_true.
  - intros Hs' Hp' Ho'. rewrite !Hdec by done.
    destruct (decide (quad = other)) as [->|Hne]; [done|].
    rewrite !bool_decide_eq_false_2; [done | congruence | congruence].
Qed.

Lemma Quad_Equal_decides_witness :
  is_Some (Subject (mkQuad rA rB rC rG)) /\
  is_Some (Predicate (mkQuad rA rB rC rG)) /\
  is_Some (Object (mkQuad rA rB rC rG)) /\
  Quad_Equal (mkQuad rA rB rC rG) None = Panic /\
  exists b : bool,
    Quad_Equal (mkQuad rA rB rC rG) (Some (mkQuad rA rB rC None)) = Ok b /\
    (b = true <-> mkQuad rA rB rC rG = mkQuad rA rB rC None).
Proof.
  split; [by eexists|]. split; [by eexists|]. split; [by eexists|].
  pose proof (Quad_Equal_decides (mkQuad rA rB rC rG) (mkQuad rA rB rC None)
                (ex_intro _ _ eq_refl) (ex_intro _ _ eq_refl)
                (ex_intro _ _ eq_refl)) as Hdec.
  exact (conj (proj1 Hdec) (proj1 (proj2 Hdec))).
Defined.

(** X2: [Equal] panics exactly when [other] is a nil pointer, or the
    comparison, made from left to right and stopped at the first
    difference, reaches a nil term of the receiver: a nil subject, a nil
    predicate after equal subjects, or a nil object after equal subjects
    and predicates. A nil graph, or a nil term of [other], does not make
    it panic. *)
Theorem Quad_Equal_panics (quad : Quad) (other : option Quad) :
  Quad_Equal quad other = Panic <->
  other = None \/
  exists o : Quad, other = Some o /\
    (Subject quad = None \/
     (Subject o = Subject quad /\
      (Predicate quad = None \/
       (Predicate o = Predicate quad /\ Object quad = None)))).
Proof.
  destruct other as [o|]; [|split; [by left | done]].
  assert (Hsome : Quad_Equal quad (Some o) = Panic <->
            Subject quad = None \/
            (Subject o = Subject quad /\
             (Predicate quad = None \/
              (Predicate o = Predicate quad /\ Object quad = None)))).
  { destruct quad as [s1 p1 o1 g1], o as [s2 p2 o2 g2]; simpl.
    unfold Quad_Equal; simpl.
    destruct s1 as [s|]; simpl; [|split; [by left | done]].
    rewrite ?Term_Equal_decide; simpl.
    destruct (decide (s2 = Some s)) as [->|Hns].
    2:{ rewrite (bool_decide_eq_false_2 _ Hns); simpl.
        split; [by destruct g1, g2 | intros [?|[? _]]; congruence]. }
    rewrite (bool_decide_eq_true_2 _ eq_refl); simpl.
    destruct p1 as [p|]; simpl;
      [|split; [intros _; right; split; [done | by left] | done]].
    rewrite ?Term_Equal_decide; simpl.
    destruct (decide (p2 = Some p)) as [->|Hnp].
    2:{ rewrite (bool_decide_eq_false_2 _ Hnp); simpl.
        split; [by destruct g1, g2|].
        intros [?|[_ [?|[? _]]]]; congruence. }
    rewrite (bool_decide_eq_true_2 _ eq_refl); simpl.
    destruct o1 as [o|]; simpl.
    - split; [by destruct (Term_Equal o o2), g1, g2|].
      intros [?|[_ [?|[_ ?]]]]; congruence.
    - split; [|done]. intros _. right. split; [done|]. right. by split. }
  rewrite Hsome. split.
  - intros Hp. right. by exists o.
  - intros [Hn|(o' & [= <-] & Hp)]; [discriminate Hn | done].
Qed.

(** ** How the queries relate *)

Lemma All_loop_acc (h : Heap) (ch : list QuadPtr) (s p o g : option Term)
    (found : list QuadPtr) :
  All_loop h ch s p o g found
  = let* l := All_loop h ch s p o g [] in Ok (found ++ l).
Proof.
  revert found. induction ch as [|k ch IH]; intros found; simpl.
  - by rewrite app_nil_r.
  - destruct (deref h k) as [quad|]; simpl; [|done].
    destruct (skipped quad s p o g) as [[|]|]; simpl; [by apply IH | | done].
    rewrite (IH (found ++ [k])), (IH [k]).
    destruct (All_loop h ch s p o g []) as [l|]; simpl; [|done].
    by rewrite <- app_assoc.
Qed.

Lemma All_loop_elem (h : Heap) (ch : list QuadPtr) (s p o g : option Term)
    (l : list QuadPtr) (q : QuadPtr) :
  All_loop h ch s p o g [] = Ok l -> q ∈ l -> q ∈ ch.
Proof.
  revert l. induction ch as [|k ch IH]; intros l; simpl.
  - intros [= <-] Hq. by apply elem_of_nil in Hq.
  - destruct (deref h k) as [quad|]; simpl; [|done].
    destruct (skipped quad s p o g) as [[|]|]; simpl; [| |done].
    + intros Hl Hq. right. by eapply IH.
    + rewrite All_loop_acc.
      destruct (All_loop h ch s p o g []) as [l'|]; simpl; [|done].
      intros [= <-] [->|Hq]%elem_of_cons; [left | right; by eapply IH].
Qed.

Lemma One_loop_head (h : Heap) (ch : list QuadPtr) (s p o g : option Term)
    (l : list QuadPtr) :
  All_loop h ch s p o g [] = Ok l -> One_loop h ch s p o g = Ok (head l).
Proof.
  revert l. induction ch as [|k ch IH]; intros l; simpl.
  - by intros [= <-].
  - destruct (deref h k) as [quad|]; simpl; [|done].
    destruct (skipped quad s p o g) as [[|]|]; simpl; [by apply IH | | done].
    rewrite All_loop_acc.
    destruct (All_loop h ch s p o g []) as [l'|]; simpl; [|done].
    by intros [= <-].
Qed.

Lemma One_loop_none (h : Heap) (ch : list QuadPtr) (s p o g : option Term) :
  One_loop h ch s p o g = Ok None -> All_loop h ch s p o g [] = Ok [].
Proof.
  induction ch as [|k ch IH]; simpl; [done|].
  destruct (deref h k) as [quad|]; simpl; [|done].
  destruct (skipped quad s p o g) as [[|]|]; simpl; [by apply IH | done | done].
Qed.

(** X3: when [All] returns, [One] with the same pattern, on the same
    iteration order, returns the first quad of its result, or the no-match
    result if there is none; and when [One] finds no match, [All] returns
    the empty list. *)
Theorem One_is_head_of_All (σ : Order) (h : Heap) (d : Dataset)
    (s p o g : option Term) :
  (forall l : list QuadPtr,
     All σ h d s p o g = Ok l -> One σ h d s p o g = Ok (head l)) /\
  (One σ h d s p o g = Ok None -> All σ h d s p o g = Ok []).
Proof.
  split.
  - intros l. apply One_loop_head.
  - apply One_loop_none.
Qed.

Lemma One_is_head_of_All_witness :
  All in_order both_graphs.1 both_graphs.2 rA None None None = Ok [0] /\
  One in_order both_graphs.1 both_graphs.2 rA None None None = Ok (Some 0).
Proof.
  split; [reflexivity|].
  exact (proj1 (One_is_head_of_All in_order both_graphs.1 both_graphs.2
                  rA None None None) [0] eq_refl).
Defined.

(** The triple of the quad at [q]. *)
Definition triple_at (h : Heap) (q : QuadPtr) : triple :=
  match h !! q with
  | Some quad => ToTriple quad
  | None => (None, None, None)
  end.

Lemma skipped_any_triple (quad : Quad) (g : option Term) :
  skipped quad None None None g
  = Ok (match g, Graph quad with
        | None, None => false
        | Some name, Some _ => negb (Term_Equal name (Graph quad))
        | _, _ => true
        end).
Proof.
  unfold skipped; simpl. destruct g as [name|], (Graph quad) as [gt|]; simpl; try done.
  rewrite !Term_Equal_decide.
  destruct (decide (gt = name)) as [->|Hne].
  - by rewrite !bool_decide_eq_true_2.
  - rewrite !bool_decide_eq_false_2; [done | congruence | congruence].
Qed.

Lemma GetGraph_loop_All `{Graphs} (h : Heap) (ch : list QuadPtr)
    (graphName : option Term) (g : Graph_) :
  GetGraph_loop h ch graphName g
  = let* l := All_loop h ch None None None graphName [] in
    Ok (foldl (fun g q => Graph_Add g (triple_at h q)) g l).
Proof.
  revert g. induction ch as [|k ch IH]; intros g; simpl; [done|].
  unfold deref, triple_at. destruct (h !! k) as [quad|] eqn:Hk; simpl; [|done].
  rewrite skipped_any_triple; simpl.
  destruct graphName as [name|], (Graph quad) as [gt|] eqn:Hg; simpl;
    try (by rewrite IH).
  - destruct (Term_Equal name (Some gt)); simpl; [|by rewrite IH].
    rewrite IH, (All_loop_acc _ _ _ _ _ _ [k]).
    destruct (All_loop h ch None None None (Some name) []) as [l|]; simpl; [|done].
    unfold triple_at. by rewrite Hk.
  - rewrite IH, (All_loop_acc _ _ _ _ _ _ [k]).
    destruct (All_loop h ch None None None None []) as [l|]; simpl; [|done].
    unfold triple_at. by rewrite Hk.
Qed.

(** With wild cards for subject, predicate and object, the loop of [All]
    on allocated pointers returns the quads of the graph asked for. *)
Lemma All_loop_any_triple (h : Heap) (ch : list QuadPtr) (g : option Term) :
  (forall q : QuadPtr, q ∈ ch -> q < length h) ->
  exists l : list QuadPtr,
    All_loop h ch None None None g [] = Ok l /\ sublist l ch /\
    forall q : QuadPtr, q ∈ l <->
      q ∈ ch /\ exists quad : Quad, h !! q = Some quad /\ Graph quad = g.
Proof.
  induction ch as [|k ch IH]; intros Hch; simpl.
  - exists []. split; [done|]. split; [done|]. intros q. rewrite elem_of_nil. tauto.
  - assert (Hk : k < length h) by (apply Hch; left).
    destruct IH as (l & Hl & Hsub & Hmem); [intros q Hq; apply Hch; by right|].
    unfold deref. destruct (h !! k) as [quad|] eqn:Hquad; simpl.
    2:{ apply lookup_ge_None in Hquad. lia. }
    rewrite skipped_any_triple; simpl.
    assert (Hskip : forall b : bool,
              (b = false <-> Graph quad = g) ->
              exists l' : list QuadPtr,
                (if b then All_loop h ch None None None g []
                 else All_loop h ch None None None g ([] ++ [k])) = Ok l' /\
                sublist l' (k :: ch) /\
                forall q : QuadPtr, q ∈ l' <->
                  q ∈ k :: ch /\
                  exists quad : Quad, h !! q = Some quad /\ Graph quad = g).
    { intros [|] Hb.
      - exists l. split; [done|]. split; [by apply sublist_cons|].
        intros q. rewrite Hmem, elem_of_cons. split; [intros [? ?]; tauto|].
        intros [[->|Hin] (quad' & Hq & Hg)]; [|by eauto].
        rewrite Hquad in Hq. injection Hq as <-. apply Hb in Hg. discriminate Hg.
      - exists (k :: l). rewrite All_loop_acc, Hl; simpl.
        split; [done|]. split; [by apply sublist_skip|].
        intros q. rewrite !elem_of_cons, Hmem. split.
        + intros [->|[Hin Hq]]; [|tauto]. split; [by left|]. exists quad.
          split; [done|]. by apply Hb.
        + intros [[->|Hin] Hq]; [by left | right; tauto]. }
    apply Hskip. destruct g as [name|], (Graph quad) as [gt|]; simpl.
    + rewrite negb_false_iff, Term_Equal_Some. split; congruence.
    + split; discriminate.
    + split; discriminate.
    + done.
Qed.

(** A stand-in for the [Graph] type, to run [GetGraph] on examples: the URI
    the graph was made for and the triples added to it, in order. *)
Definition listed : Graphs := {|
  Graph_ := string * list triple;
  NewGraph := fun u => (u, []);
  Graph_Add := fun g t => (g.1, g.2 ++ [t])
|}.

(** X4: [GetGraph(g)] adds to a new graph, made for the URI of the dataset,
    the triples of the quads that [All(nil, nil, nil, g)] returns, in the
    same order, and panics when [All] does. On a dataset whose stored
    pointers all point to quads, [All(nil, nil, nil, g)] returns, none
    twice, the stored quads whose graph is [g] and no other, nil matching
    nil only. [GetDefaultGraph] is [GetGraph(nil)]: on such a dataset it
    holds the triples of the stored quads with a nil graph and of no
    other. *)
Theorem GetGraph_adds_what_All_returns `{Graphs} (σ : Order) (h : Heap)
    (d : Dataset) (graphName : option Term) :
  GetGraph σ h d graphName
  = (let* l := All σ h d None None None graphName in
     Ok (foldl (fun g q => Graph_Add g (triple_at h q)) (NewGraph (uri d)) l)) /\
  GetDefaultGraph σ h d = GetGraph σ h d None /\
  (allocated h d ->
   (exists l : list QuadPtr,
      All σ h d None None None graphName = Ok l /\ NoDup l /\
      forall q : QuadPtr, q ∈ l <->
        is_Some (quads d !! q) /\
        exists quad : Quad, h !! q = Some quad /\ Graph quad = graphName) /\
   (exists l : list QuadPtr,
      GetDefaultGraph σ h d
      = Ok (foldl (fun g q => Graph_Add g (triple_at h q)) (NewGraph (uri d)) l) /\
      NoDup l /\
      forall q : QuadPtr, q ∈ l <->
        is_Some (quads d !! q) /\
        exists quad : Quad, h !! q = Some quad /\ Graph quad = None)).
Proof.
  split; [apply GetGraph_loop_All|]. split; [done|]. intros Ha.
  assert (Hall : forall g : option Term,
            exists l : list QuadPtr,
              All σ h d None None None g = Ok l /\ NoDup l /\
              forall q : QuadPtr, q ∈ l <->
                is_Some (quads d !! q) /\
                exists quad : Quad, h !! q = Some quad /\ Graph quad = g).
  { intros g.
    destruct (All_loop_any_triple h (IterQuads σ d) g) as (l & Hl & Hsub & Hmem).
    { intros q Hq. apply Ha. by apply (elem_of_IterQuads σ). }
    exists l. split; [done|]. split.
    - exact (sublist_NoDup _ _ (NoDup_IterQuads σ d) Hsub).
    - intros q. by rewrite Hmem, elem_of_IterQuads. }
  split; [apply Hall|].
  destruct (Hall None) as (l & Hl & Hnd & Hmem). exists l.
  split; [|done]. unfold GetDefaultGraph, GetGraph.
  rewrite GetGraph_loop_All. unfold All in Hl. by rewrite Hl.
Qed.

Lemma GetGraph_adds_what_All_returns_witness :
  allocated both_graphs.1 both_graphs.2 /\
  exists l : list QuadPtr,
    @GetDefaultGraph listed in_order both_graphs.1 both_graphs.2
    = Ok (foldl (fun g q => @Graph_Add listed g (triple_at both_graphs.1 q))
            (@NewGraph listed (uri both_graphs.2)) l) /\
    NoDup l /\
    forall q : QuadPtr, q ∈ l <->
      is_Some (quads both_graphs.2 !! q) /\
      exists quad : Quad, both_graphs.1 !! q = Some quad /\ Graph quad = None.
Proof.
  assert (Ha : allocated both_graphs.1 both_graphs.2).
  { apply AddQuad_allocated, AddQuad_allocated, NewDataset_allocated. }
  split; [exact Ha|].
  exact (proj2 (proj2 (proj2 (@GetGraph_adds_what_All_returns listed in_order
                                both_graphs.1 both_graphs.2 None)) Ha)).
Defined.

(** ** Removal and merge *)

Lemma Dataset_eq (d d' : Dataset) :
  quads d = quads d' -> uri d = uri d' -> term d = term d' -> d = d'.
Proof. destruct d, d'; simpl. by intros -> -> ->. Qed.

(** X5: [Remove] of a pointer that is not stored changes nothing; of a
    stored one it lowers [Len] by one; removing twice is removing once; and
    after [Remove(q)] no query returns [q], whatever the pattern and the
    iteration order. *)
Theorem Remove_forgets_the_pointer (σ : Order) (h : Heap) (d : Dataset)
    (q : QuadPtr) (s p o g : option Term) :
  (quads d !! q = None -> Remove d q = d) /\
  (is_Some (quads d !! q) -> S (Len (Remove d q)) = Len d) /\
  Remove (Remove d q) q = Remove d q /\
  One σ h (Remove d q) s p o g <> Ok (Some q) /\
  (forall l : list QuadPtr, All σ h (Remove d q) s p o g = Ok l -> q ∉ l).
Proof.
  assert (Hgone : ~ q ∈ IterQuads σ (Remove d q)).
  { rewrite elem_of_IterQuads. unfold Remove; simpl. rewrite lookup_delete_eq.
    by intros [? ?]. }
  split; [|split; [|split; [|split]]].
  - intros Hq. unfold Remove. rewrite delete_id by done. apply Dataset_eta.
  - intros Hq. unfold Len, Remove; simpl. rewrite map_size_delete_Some by done.
    destruct Hq as [v Hv]. pose proof (map_size_non_empty_iff (quads d)) as Hne.
    assert (size (quads d) <> 0) by (apply Hne; intros E; by rewrite E in Hv).
    lia.
  - apply Dataset_eq; simpl; [|done|done]. apply delete_id, lookup_delete_eq.
  - intros Hone. by apply One_loop_found in Hone.
  - intros l Hall Hq. apply Hgone. by eapply All_loop_elem.
Qed.

Lemma Remove_forgets_the_pointer_witness :
  is_Some (quads both_graphs.2 !! 1) /\
  S (Len (Remove both_graphs.2 1)) = Len both_graphs.2.
Proof.
  split; [by exists true|].
  exact (proj1 (proj2 (Remove_forgets_the_pointer in_order both_graphs.1
                         both_graphs.2 1 rA rB rC rG))
           (ex_intro _ true eq_refl)).
Defined.

Lemma foldl_Add_quads (l : list QuadPtr) (d : Dataset) (q : QuadPtr) :
  quads (foldl Add d l) !! q
  = if decide (q ∈ l) then Some true else quads d !! q.
Proof.
  revert d. induction l as [|k l IH]; intros d; simpl.
  - by destruct (decide (q ∈ [])) as [Hin%elem_of_nil|].
  - rewrite IH. unfold Add at 1; simpl.
    destruct (decide (q ∈ l)) as [Hin|Hnin], (decide (q ∈ k :: l)) as [Hin'|Hnin'];
      try done.
    + exfalso. apply Hnin'. by right.
    + apply elem_of_cons in Hin' as [->|Hin']; [by rewrite lookup_insert_eq | done].
    + rewrite lookup_insert_ne; [done|]. intros ->. apply Hnin'. left.
Qed.

Lemma foldl_Add_uri (l : list QuadPtr) (d : Dataset) :
  uri (foldl Add d l) = uri d /\ term (foldl Add d l) = term d.
Proof.
  revert d. induction l as [|k l IH]; intros d; simpl; [done|].
  destruct (IH (Add d k)) as [-> ->]. done.
Qed.

(** X6: the dataset [Merge] leaves does not depend on the order in which
    the runtime walks the merged dataset; it keeps its own URI and term;
    merging the same dataset again, or an empty one, changes nothing. *)
Theorem Merge_is_order_independent (σ σ' : Order) (d1 d2 : Dataset) (u : string) :
  Merge σ d1 d2 = Merge σ' d1 d2 /\
  uri (Merge σ d1 d2) = uri d1 /\ term (Merge σ d1 d2) = term d1 /\
  Merge σ' (Merge σ d1 d2) d2 = Merge σ d1 d2 /\
  Merge σ d1 (NewDataset u) = d1.
Proof.
  assert (Hquads : forall τ d (q : QuadPtr), quads (Merge τ d d2) !! q
            = if decide (is_Some (quads d2 !! q)) then Some true else quads d !! q).
  { intros τ d q. unfold Merge. rewrite foldl_Add_quads.
    repeat case_decide; try done; exfalso;
      match goal with
      | Hn : ~ is_Some _ |- _ => apply Hn; by apply (elem_of_IterQuads τ)
      | Hn : ~ _ ∈ _ |- _ => apply Hn; by apply elem_of_IterQuads
      end. }
  assert (Huri : forall τ d d', uri (Merge τ d d') = uri d /\ term (Merge τ d d') = term d).
  { intros τ d d'. apply foldl_Add_uri. }
  split; [|split; [|split; [|split]]].
  - apply Dataset_eq.
    + apply map_eq. intros q. by rewrite !Hquads.
    + destruct (Huri σ d1 d2) as [-> _], (Huri σ' d1 d2) as [-> _]. done.
    + destruct (Huri σ d1 d2) as [_ ->], (Huri σ' d1 d2) as [_ ->]. done.
  - apply Huri.
  - apply Huri.
  - apply Dataset_eq.
    + apply map_eq. intros q. rewrite !Hquads. by destruct (decide _).
    + by destruct (Huri σ' (Merge σ d1 d2) d2) as [-> _].
    + by destruct (Huri σ' (Merge σ d1 d2) d2) as [_ ->].
  - unfold Merge, IterQuads; simpl. rewrite map_to_list_empty; simpl.
    assert (Hnil : shuffle σ ([] : list QuadPtr) = []).
    { apply Permutation_nil_r. apply shuffle_perm. }
    by rewrite Hnil.
Qed.

(** ** The flat text, again *)

Lemma String_loop_acc (h : Heap) (ch : list QuadPtr) (acc : string) :
  String_loop h ch acc
  = let* s := String_loop h ch EmptyString in Ok (acc +:+ s).
Proof.
  revert acc. induction ch as [|k ch IH]; intros acc; simpl.
  - by rewrite append_nil_r.
  - destruct (deref h k) as [quad|]; simpl; [|done].
    rewrite (IH (acc +:+ _)).
    change (EmptyString +:+ (Quad_String quad +:+ strings.LF))
      with (Quad_String quad +:+ strings.LF).
    rewrite (IH (Quad_String quad +:+ strings.LF)).
    destruct (String_loop h ch EmptyString) as [s|]; simpl; [|done].
    by rewrite append_assoc.
Qed.

Lemma serializeNQuads_loop_String (h : Heap) (ch : list QuadPtr) (w : Writer) :
  serializeNQuads_loop h ch w = String_loop h ch w.
Proof.
  revert w. induction ch as [|k ch IH]; intros w; simpl; [done|].
  destruct (deref h k) as [quad|]; simpl; [|done]. apply IH.
Qed.

(** X7: the flat serialization appends to the writer exactly the text that
    [String()] returns for the same iteration order, leaves what the writer
    already holds in place, reports no error, and panics only when
    [String()] does. *)
Theorem serializeNQuads_appends_String (σ : Order) (h : Heap) (d : Dataset)
    (w : Writer) :
  serializeNQuads σ h d w
  = let* s := Dataset_String σ h d in Ok (w +:+ s, None).
Proof.
  unfold serializeNQuads, Dataset_String.
  rewrite serializeNQuads_loop_String, String_loop_acc.
  by destruct (String_loop h (IterQuads σ d) EmptyString).
Qed.

(** ** The formats [Parse] and [Serialize] know *)

Lemma index_mimeParser (mime : string) :
  index mimeParser mime
  = if decide (mime = "text/turtle") then "turtle"
    else if decide (mime = "application/trig") then "trig"
    else if decide (mime = "application/ld+json") then "jsonld"
    else if decide (mime = "application/sparql-update") then "internal"
    else EmptyString.
Proof.
  unfold index, mimeParser; simpl. rewrite !lookup_insert, lookup_empty.
  repeat case_decide; subst; done.
Qed.




(** ** What parsing does to the store *)

(** [st'] is [st] with quads added: the heap has grown at its end, and [n]
    new pointers, the addresses of the new cells, are stored beside the
    old ones. *)
Definition grown (st st' : store) (cells : list Quad) : Prop :=
  st'.1 = st.1 ++ cells /\
  uri st'.2 = uri st.2 /\ term st'.2 = term st.2 /\
  forall q : QuadPtr, is_Some (quads st'.2 !! q) <->
    is_Some (quads st.2 !! q) \/ length st.1 <= q < length st.1 + length cells.

Lemma grown_refl (st : store) : grown st st [].
Proof.
  split; [by rewrite app_nil_r|]. split; [done|]. split; [done|].
  intros q. simpl. split; [by left | intros [?|?]; [done | lia]].
Qed.

Lemma grown_trans (st1 st2 st3 : store) (c12 c23 : list Quad) :
  grown st1 st2 c12 -> grown st2 st3 c23 -> grown st1 st3 (c12 ++ c23).
Proof.
  intros (Hh1 & Hu1 & Ht1 & Hk1) (Hh2 & Hu2 & Ht2 & Hk2).
  split; [by rewrite Hh2, Hh1, app_assoc|].
  split; [congruence|]. split; [congruence|].
  intros q. rewrite Hk2, Hk1, Hh1, !length_app. split.
  - intros [[?|?]|?]; [by left | right; lia | right; lia].
  - intros [?|?]; [by left; left|].
    destruct (decide (q < length st1.1 + length c12)); [left; right; lia | right; lia].
Qed.

Lemma AddQuad_grown (st : store) (s p o g : option Term) :
  grown st (AddQuad st.1 st.2 s p o g) [mkQuad s p o g].
Proof.
  rewrite AddQuad_eq. split; [done|]. split; [done|]. split; [done|].
  intros q. simpl. destruct (decide (length st.1 = q)) as [<-|Hne].
  - rewrite lookup_insert_eq. split; [intros _; right; lia | by eexists].
  - rewrite lookup_insert_ne by done. split; [by left | intros [?|?]; [done | lia]].
Qed.

Lemma add_quads_grown (ts : list triple) (st : store) (g : option Term) :
  grown st (add_quads st ts g) (map (fun t : triple => mkQuad t.1.1 t.1.2 t.2 g) ts).
Proof.
  revert st. induction ts as [|[[s p] o] ts IH]; intros st.
  - apply grown_refl.
  - change (add_quads st ((s, p, o) :: ts) g)
      with (add_quads (AddQuad st.1 st.2 s p o g) ts g).
    apply (grown_trans st (AddQuad st.1 st.2 s p o g) _ [mkQuad s p o g]);
      [apply AddQuad_grown | apply IH].
Qed.

Lemma add_triples_add_quads (st : store) (ts : list triple) :
  add_triples st ts = add_quads st ts None.
Proof. reflexivity. Qed.

(** The quads a statement group adds: those of its triples if the Turtle
    parser accepts it, none otherwise. *)
Definition group_cells `{External} (base : string) (g : group) : list Quad :=
  match turtle_Parse base (strings.Join g.1 strings.LF) with
  | Triples ts => map (fun t : triple => mkQuad t.1.1 t.1.2 t.2 g.2) ts
  | ParseError _ => []
  end.

Lemma run_grown `{External} (gs : list group) (st : store) :
  grown st (run st gs) (concat (map (group_cells (uri st.2)) gs)).
Proof.
  revert st. induction gs as [|g gs IH]; intros st; [apply grown_refl|].
  change (run st (g :: gs)) with (run (processTripleLines st g.1 g.2) gs).
  simpl. apply (grown_trans st (processTripleLines st g.1 g.2)).
  - unfold processTripleLines, group_cells.
    destruct (turtle_Parse _ _); [apply grown_refl | apply add_quads_grown].
  - specialize (IH (processTripleLines st g.1 g.2)).
    by rewrite processTripleLines_uri in IH.
Qed.

Lemma grown_Len (st st' : store) (cells : list Quad) :
  allocated st.1 st.2 -> grown st st' cells ->
  Len st'.2 = Len st.2 + length cells /\ allocated st'.1 st'.2.
Proof.
  intros Ha (Hh & _ & _ & Hk). split.
  - unfold Len. rewrite <- !(size_dom (quads _)).
    assert (Hdom : dom (quads st'.2)
                   = dom (quads st.2) ∪ list_to_set (seq (length st.1) (length cells))).
    { apply set_eq. intros q.
      rewrite elem_of_union, !elem_of_dom, elem_of_list_to_set, elem_of_seq. apply Hk. }
    rewrite Hdom, size_union.
    + rewrite size_list_to_set by apply NoDup_seq. by rewrite length_seq.
    + intros q Hq Hnew. apply elem_of_dom, Ha in Hq.
      apply elem_of_list_to_set, elem_of_seq in Hnew. lia.
  - intros q Hq. rewrite Hh, length_app. apply Hk in Hq as [Hq|Hq]; [|lia].
    apply Ha in Hq. lia.
Qed.

Lemma grown_holds (st st' : store) (cells : list Quad) (quad : Quad) :
  grown st st' cells -> holds st quad -> holds st' quad.
Proof.
  intros (Hh & _ & _ & Hk) (q & Hq & Hquad). exists q. split.
  - apply Hk. by left.
  - rewrite Hh. by apply lookup_app_l_Some.
Qed.

Lemma Parse_turtle_eq `{External} (st : store) (reader : string) :
  Parse st reader "text/turtle"
  = match turtle_Parse (uri st.2) reader with
    | ParseError err => (st, Some err)
    | Triples ts => (add_quads st ts None, None)
    end.
Proof. reflexivity. Qed.

Lemma Parse_trig_eq `{External} (st : store) (reader : string) :
  Parse st reader "application/trig" = parseTrig st reader.
Proof. reflexivity. Qed.

Lemma Parse_jsonld_eq `{External} (st : store) (reader : string) :
  Parse st reader "application/ld+json"
  = match jsonld_ReadJSON reader with
    | inl err => (st, Some err)
    | inr j =>
        match jsonld_ToRDF j (mkOptions EmptyString false) with
        | ParseError err => (st, Some err)
        | Triples ts => (add_quads st ts None, None)
        end
    end.
Proof. reflexivity. Qed.

Lemma Parse_unsupported `{External} (st : store) (reader mime : string) :
  mime <> "text/turtle" -> mime <> "application/trig" ->
  mime <> "application/ld+json" ->
  exists name : string,
    Parse st reader mime = (st, Some (name +:+ " is not supported by the parser")).
Proof.
  intros H1 H2 H3. unfold Parse. rewrite index_mimeParser.
  rewrite !decide_False by done. case_decide; by eexists.
Qed.

(** X9: whatever the input and the mime type, [Parse] only adds: the heap
    grows at its end by the quads added, every pointer stored before is
    still stored, the URI and the term of the dataset are kept, and every
    quad value the dataset held is still held. When [Parse] returns an
    error the store is the one it started from. *)
Theorem Parse_only_adds `{External} (st : store) (reader mime : string) :
  exists cells : list Quad,
    (Parse st reader mime).1.1 = st.1 ++ cells /\
    uri (Parse st reader mime).1.2 = uri st.2 /\
    term (Parse st reader mime).1.2 = term st.2 /\
    (forall q : QuadPtr, is_Some (quads (Parse st reader mime).1.2 !! q) <->
       is_Some (quads st.2 !! q) \/ length st.1 <= q < length st.1 + length cells) /\
    (forall quad : Quad, holds st quad -> holds (Parse st reader mime).1 quad) /\
    (is_Some (Parse st reader mime).2 -> (Parse st reader mime).1 = st).
Proof.
  assert (Hgrown : exists cells, grown st (Parse st reader mime).1 cells /\
            (is_Some (Parse st reader mime).2 -> (Parse st reader mime).1 = st)).
  { destruct (decide (mime = "text/turtle")) as [->|H1].
    { rewrite Parse_turtle_eq.
      destruct (turtle_Parse (uri st.2) reader) as [err|ts]; simpl.
      - exists []. split; [apply grown_refl | done].
      - eexists. split; [apply add_quads_grown | by intros [? ?]]. }
    destruct (decide (mime = "application/trig")) as [->|H2].
    { rewrite Parse_trig_eq, parseTrig_run; simpl.
      eexists. split; [apply run_grown | by intros [? ?]]. }
    destruct (decide (mime = "application/ld+json")) as [->|H3].
    { rewrite Parse_jsonld_eq.
      destruct (jsonld_ReadJSON reader) as [err|j]; simpl.
      { exists []. split; [apply grown_refl | done]. }
      destruct (jsonld_ToRDF j _) as [err|ts]; simpl.
      - exists []. split; [apply grown_refl | done].
      - eexists. split; [apply add_quads_grown | by intros [? ?]]. }
    destruct (Parse_unsupported st reader mime H1 H2 H3) as [name ->].
    exists []. split; [apply grown_refl | done]. }
  destruct Hgrown as (cells & Hg & Herr). exists cells.
  pose proof Hg as (Hh & Hu & Ht & Hk).
  split; [done|]. split; [done|]. split; [done|]. split; [done|].
  split; [|done]. intros quad. by apply (grown_holds st _ cells).
Qed.

(** X10: [Parse] of Turtle input either returns the error of the parser, or
    stores one new default-graph quad for each triple the parser delivers:
    on a store whose pointers are allocated [Len] grows by the number of
    triples, so parsing the same text again adds the same number again. *)
Theorem Parse_turtle_adds_every_triple `{External} (st : store) (reader : string) :
  allocated st.1 st.2 ->
  match turtle_Parse (uri st.2) reader with
  | ParseError err => Parse st reader "text/turtle" = (st, Some err)
  | Triples ts =>
      (Parse st reader "text/turtle").2 = None /\
      (Parse st reader "text/turtle").1.1 = st.1 ++ map default_quad ts /\
      Len (Parse st reader "text/turtle").1.2 = Len st.2 + length ts /\
      Len (Parse (Parse st reader "text/turtle").1 reader "text/turtle").1.2
        = Len st.2 + length ts + length ts
  end.
Proof.
  intros Ha.
  assert (Hstep : forall st0 : store, allocated st0.1 st0.2 -> uri st0.2 = uri st.2 ->
            forall ts, turtle_Parse (uri st.2) reader = Triples ts ->
            Parse st0 reader "text/turtle" = (add_quads st0 ts None, None) /\
            Len (add_quads st0 ts None).2 = Len st0.2 + length ts /\
            allocated (add_quads st0 ts None).1 (add_quads st0 ts None).2 /\
            uri (add_quads st0 ts None).2 = uri st.2).
  { intros st0 Ha0 Hu0 ts Hts. split.
    - by rewrite Parse_turtle_eq, Hu0, Hts.
    - pose proof (add_quads_grown ts st0 None) as Hg.
      destruct (grown_Len _ _ _ Ha0 Hg) as [HLen Hal].
      rewrite length_map in HLen. split; [done|]. split; [done|].
      destruct Hg as (_ & Hu & _). congruence. }
  destruct (turtle_Parse (uri st.2) reader) as [err|ts] eqn:Hts.
  - by rewrite Parse_turtle_eq, Hts.
  - destruct (Hstep st Ha eq_refl ts eq_refl) as (-> & HLen & Hal & Hu); simpl.
    split; [done|]. split.
    + destruct (add_quads_grown ts st None) as (-> & _). f_equal.
      apply map_ext. by intros [[s p] o].
    + split; [done|].
      destruct (Hstep _ Hal Hu ts eq_refl) as (-> & HLen' & _); simpl. lia.
Qed.

Lemma Parse_turtle_adds_every_triple_witness :
  allocated added_once.1 added_once.2 /\
  Len (@Parse stub added_once "<s> <p> <o> ." "text/turtle").1.2 = 2.
Proof.
  assert (Ha : allocated added_once.1 added_once.2)
    by (apply AddQuad_allocated, NewDataset_allocated).
  split; [exact Ha|].
  exact (proj1 (proj2 (proj2
    (@Parse_turtle_adds_every_triple stub added_once "<s> <p> <o> ." Ha)))).
Defined.

(** ** What the TriG scanner hands to the Turtle parser *)

(** A line the scanner keeps for the Turtle parser: trimmed text that is
    not empty, is no comment and no prefix declaration, and has no brace. *)
Definition statement_line (line : string) : Prop :=
  (exists raw : string, line = strings.TrimSpace raw) /\
  line <> EmptyString /\
  strings.HasPrefix line "#" = false /\
  strings.HasPrefix line "@prefix" = false /\
  strings.Contains line "{" = false /\
  strings.Contains line "}" = false.

Definition nil_or_resource (g : option Term) : Prop :=
  g = None \/ exists u : string, g = Some (Resource u).

Definition sound_group (g : group) : Prop :=
  g.1 <> [] /\ Forall statement_line g.1 /\ nil_or_resource g.2.

Definition sound_trace (tr : trace) : Prop :=
  nil_or_resource (at_graph tr) /\ Forall statement_line (pending tr) /\
  Forall sound_group (emitted tr).

Lemma parseGraphName_resource (graphStr : string) :
  nil_or_resource (parseGraphName graphStr).
Proof. unfold parseGraphName. right. destruct (_ && _); by eexists. Qed.

Lemma scan_line_sound (tr : trace) (line : string) :
  sound_trace tr -> sound_trace (scan_line tr line).
Proof.
  intros (Hg & Hp & He). unfold scan_line.
  assert (Htrim : exists raw : string,
            strings.TrimSpace line = strings.TrimSpace raw) by (by exists line).
  revert Htrim. generalize (strings.TrimSpace line). intros t Htrim. cbv zeta.
  destruct (String.eqb t EmptyString) eqn:Hempty; simpl; [done|].
  destruct (strings.HasPrefix t "#") eqn:Hhash; simpl; [done|].
  destruct (strings.HasPrefix t "@prefix") eqn:Hprefix; [done|].
  destruct (strings.Contains t "{") eqn:Hopen.
  { destruct (1 <? length _)%nat; [|done].
    destruct (String.eqb (strings.TrimSpace _) EmptyString).
    - split; [by left | done].
    - split; [apply parseGraphName_resource | done]. }
  destruct (strings.Contains t "}") eqn:Hclose.
  { destruct (pending tr) as [|l ls] eqn:Hpend; simpl.
    - split; [by left|]. split; [constructor | done].
    - split; [by left|]. split; [constructor|].
      apply Forall_app. split; [done|]. constructor; [|constructor].
      split; [done|]. by split. }
  assert (Hline : statement_line t).
  { split; [done|]. split; [by apply String.eqb_neq | done]. }
  destruct (strings.HasSuffix t ".").
  - split; [done|]. split; [constructor|].
    apply Forall_app. split; [done|]. constructor; [|constructor].
    split; [by destruct (pending tr)|]. split; [|done].
    apply Forall_app. split; [done|]. by constructor.
  - split; [done|]. split; [|done]. apply Forall_app. split; [done|]. by constructor.
Qed.

Lemma scan_lines_sound (lines : list string) (tr : trace) :
  sound_trace tr -> sound_trace (foldl scan_line tr lines).
Proof.
  revert tr. induction lines as [|l lines IH]; intros tr Htr; simpl; [done|].
  by apply IH, scan_line_sound.
Qed.

Lemma statement_groups_sound (reader : string) :
  Forall sound_group (statement_groups reader).
Proof.
  unfold statement_groups.
  destruct (scan_lines_sound (strings.Split reader "010"%char) (mkTrace None [] []))
    as (Hg & Hp & He).
  { split; [by left|]. split; constructor. }
  destruct (pending _) as [|l ls] eqn:Hpend; simpl; [done|].
  apply Forall_app. split; [done|]. constructor; [|constructor].
  split; [done|]. by split.
Qed.

Lemma elem_of_concat {A : Type} (x : A) (ls : list (list A)) :
  x ∈ concat ls <-> exists l : list A, x ∈ l /\ l ∈ ls.
Proof.
  induction ls as [|l ls IH]; simpl.
  - split; [intros Hx; by apply elem_of_nil in Hx|].
    intros (l & _ & Hl). by apply elem_of_nil in Hl.
  - rewrite elem_of_app, IH. split.
    + intros [Hx|(l' & Hx & Hl')]; [exists l; split; [done | left]|].
      exists l'. split; [done | by right].
    + intros (l' & Hx & [->|Hl']%elem_of_cons); [by left|]. right. by exists l'.
Qed.

(** X11: every statement group the TriG scanner hands to the Turtle parser
    has at least one line; its lines are trimmed texts that are not empty,
    are no comment and no [@prefix] declaration and contain no brace; and
    its graph is nil or a resource, so that no quad read from TriG is in a
    blank-node or literal graph. *)
Theorem parseTrig_groups_are_statements `{External} (st : store) (reader : string) :
  (forall (lines : list string) (g : option Term),
     (lines, g) ∈ statement_groups reader ->
     lines <> [] /\ Forall statement_line lines /\ nil_or_resource g) /\
  (exists cells : list Quad,
     (Parse st reader "application/trig").1.1 = st.1 ++ cells /\
     forall quad : Quad, quad ∈ cells -> nil_or_resource (Graph quad)).
Proof.
  pose proof (statement_groups_sound reader) as Hsound.
  rewrite Forall_forall in Hsound. split.
  - intros lines g Hin. apply (Hsound (lines, g) Hin).
  - rewrite Parse_trig_eq, parseTrig_run; simpl.
    destruct (run_grown (statement_groups reader) st) as (Hh & _).
    eexists. split; [exact Hh|].
    intros quad Hq. apply elem_of_concat in Hq as (cells & Hq & Hcells).
    apply list_elem_of_fmap in Hcells as (g & -> & Hg).
    destruct (Hsound g Hg) as (_ & _ & Hgraph).
    unfold group_cells in Hq. destruct (turtle_Parse _ _) as [err|ts].
    + by apply elem_of_nil in Hq.
    + apply list_elem_of_fmap in Hq as (t & -> & _). exact Hgraph.
Qed.

Lemma parseTrig_groups_are_statements_witness :
  (["<#alice> <knows> <#bob> ."], NewResource "http://example.org/graph1")
    ∈ statement_groups sample_trig /\
  nil_or_resource (NewResource "http://example.org/graph1").
Proof.
  assert (Hin : (["<#alice> <knows> <#bob> ."], NewResource "http://example.org/graph1")
                  ∈ statement_groups sample_trig)
    by (apply (list_elem_of_lookup_2 _ 2); reflexivity).
  split; [exact Hin|].
  exact (proj2 (proj2 (proj1 (@parseTrig_groups_are_statements stub
                                ([], NewDataset "u:") sample_trig) _ _ Hin))).
Defined.

(** X12: on a store whose pointers are allocated, [Parse] of TriG input
    raises [Len] by the number of triples of the statement groups the
    Turtle parser accepts, each triple counted as often as it is
    delivered, and the new quads are these triples with the graph of
    their group, in the order of the document. *)
Theorem Parse_trig_adds_every_triple `{External} (st : store) (reader : string) :
  allocated st.1 st.2 ->
  (Parse st reader "application/trig").1.1
    = st.1 ++ concat (map (group_cells (uri st.2)) (statement_groups reader)) /\
  Len (Parse st reader "application/trig").1.2
    = Len st.2
      + length (concat (map (group_cells (uri st.2)) (statement_groups reader))) /\
  allocated (Parse st reader "application/trig").1.1
            (Parse st reader "application/trig").1.2.
Proof.
  intros Ha. rewrite Parse_trig_eq, parseTrig_run; simpl.
  pose proof (run_grown (statement_groups reader) st) as Hg.
  destruct (grown_Len _ _ _ Ha Hg) as [HLen Hal].
  split; [by destruct Hg as (-> & _) | by split].
Qed.

Lemma Parse_trig_adds_every_triple_witness :
  allocated ([] : Heap) (NewDataset "u:") /\
  Len (@Parse stub ([], NewDataset "u:") sample_trig "application/trig").1.2 = 2.
Proof.
  split; [apply NewDataset_allocated|].
  exact (proj1 (proj2 (@Parse_trig_adds_every_triple stub ([], NewDataset "u:")
                         sample_trig (NewDataset_allocated [] "u:")))).
Defined.

(** A line that adds nothing to a statement group: blank, a comment, a
    prefix declaration, or any text with a brace in it. *)
Definition skipped_line (line : string) : Prop :=
  let t := strings.TrimSpace line in
  t = EmptyString \/ strings.HasPrefix t "#" = true \/
  strings.HasPrefix t "@prefix" = true \/
  strings.Contains t "{" = true \/ strings.Contains t "}" = true.

Lemma scan_line_skipped (tr : trace) (line : string) :
  skipped_line line -> pending tr = [] -> emitted tr = [] ->
  pending (scan_line tr line) = [] /\ emitted (scan_line tr line) = [].
Proof.
  unfold skipped_line, scan_line. generalize (strings.TrimSpace line).
  intros t Hskip Hp He. cbv zeta in *.
  destruct (String.eqb t EmptyString) eqn:Hempty; simpl; [done|].
  destruct (strings.HasPrefix t "#") eqn:Hhash; simpl; [done|].
  destruct (strings.HasPrefix t "@prefix") eqn:Hprefix; [done|].
  destruct (strings.Contains t "{") eqn:Hopen.
  { destruct (1 <? length _)%nat; [|done].
    by destruct (String.eqb (strings.TrimSpace _) EmptyString). }
  destruct (strings.Contains t "}") eqn:Hclose.
  { rewrite Hp. done. }
  apply String.eqb_neq in Hempty. exfalso.
  destruct Hskip as [?|[?|[?|[?|?]]]]; congruence.
Qed.

(** X13: a TriG document in which every line is blank, a comment, a prefix
    declaration or contains a brace has no statement group: [Parse] returns
    no error and leaves the store as it was. A block written on a single
    line is such a document, and so is the empty text. *)
Theorem Parse_trig_without_statements `{External} (st : store) (reader : string) :
  Forall skipped_line (strings.Split reader "010"%char) ->
  statement_groups reader = [] /\
  Parse st reader "application/trig" = (st, None).
Proof.
  intros Hlines.
  assert (Hnone : statement_groups reader = []).
  { unfold statement_groups.
    assert (Hinv : forall lines tr, Forall skipped_line lines ->
              pending tr = [] -> emitted tr = [] ->
              pending (foldl scan_line tr lines) = [] /\
              emitted (foldl scan_line tr lines) = []).
    { induction lines as [|l lines IH]; intros tr Hl Hp He; simpl; [done|].
      apply Forall_cons in Hl as [Hl Hrest].
      destruct (scan_line_skipped tr l Hl Hp He) as [Hp' He'].
      by apply IH. }
    destruct (Hinv _ (mkTrace None [] []) Hlines eq_refl eq_refl) as [-> ->].
    done. }
  split; [done|]. by rewrite Parse_trig_eq, parseTrig_run, Hnone.
Qed.

Lemma Parse_trig_without_statements_witness :
  Forall skipped_line (strings.Split "{ <a> <b> <c> . }" "010"%char) /\
  @Parse stub added_once "{ <a> <b> <c> . }" "application/trig" = (added_once, None).
Proof.
  assert (Hlines : Forall skipped_line (strings.Split "{ <a> <b> <c> . }" "010"%char)).
  { constructor; [|constructor]. right. right. right. left. reflexivity. }
  split; [exact Hlines|].
  exact (proj2 (@Parse_trig_without_statements stub added_once
                  "{ <a> <b> <c> . }" Hlines)).
Defined.

(** ** [GetNamedGraphs] *)

(** Each entry of the map of graph names is filed under its own text. *)
Definition filed (m : gmap string Term) : Prop :=
  forall (name : string) (t : Term), m !! name = Some t -> Term_String t = name.

Lemma graph_names_spec (h : Heap) (ch : list QuadPtr) (m : gmap string Term) :
  (forall q, q ∈ ch -> is_Some (h !! q)) -> filed m ->
  exists m' : gmap string Term,
    graph_names h ch m = Ok m' /\ filed m' /\
    (forall name, is_Some (m !! name) -> is_Some (m' !! name)) /\
    (forall name t, m' !! name = Some t ->
       m !! name = Some t \/
       exists q quad, q ∈ ch /\ h !! q = Some quad /\ Graph quad = Some t) /\
    (forall q quad g, q ∈ ch -> h !! q = Some quad -> Graph quad = Some g ->
       is_Some (m' !! Term_String g)).
Proof.
  revert m. induction ch as [|k ch IH]; intros m Hr Hm; simpl.
  - exists m. split; [done|]. split; [done|]. split; [done|]. split; [by left|].
    intros q quad g Hq. by apply elem_of_nil in Hq.
  - destruct (Hr k) as [quad Hk]; [left|]. unfold deref. rewrite Hk; simpl.
    assert (Hr' : forall q, q ∈ ch -> is_Some (h !! q)) by (intros q Hq; apply Hr; by right).
    destruct (Graph quad) as [g|] eqn:Hg.
    + destruct (IH (<[Term_String g := g]> m) Hr') as (m' & Hrun & Hf & Hkeep & Hfrom & Hall).
      { intros name t. destruct (decide (Term_String g = name)) as [<-|Hne].
        - rewrite lookup_insert_eq. by intros [= <-].
        - rewrite lookup_insert_ne by done. apply Hm. }
      exists m'. split; [done|]. split; [done|]. split; [|split].
      * intros name Hname. apply Hkeep.
        destruct (decide (Term_String g = name)) as [<-|Hne].
        -- rewrite lookup_insert_eq. by eexists.
        -- by rewrite lookup_insert_ne.
      * intros name t Ht. destruct (Hfrom name t Ht) as [Hins|(q & quad' & Hq & Hq' & Hgq)].
        -- destruct (decide (Term_String g = name)) as [<-|Hne].
           ++ rewrite lookup_insert_eq in Hins. injection Hins as <-.
              right. exists k, quad. split; [left | done].
           ++ rewrite lookup_insert_ne in Hins by done. by left.
        -- right. exists q, quad'. split; [by right | done].
      * intros q quad' g' [->|Hq]%elem_of_cons Hq' Hgq.
        -- rewrite Hk in Hq'. injection Hq' as <-. rewrite Hg in Hgq. injection Hgq as <-.
           apply Hkeep. rewrite lookup_insert_eq. by eexists.
        -- by apply (Hall q quad').
    + destruct (IH m Hr' Hm) as (m' & Hrun & Hf & Hkeep & Hfrom & Hall).
      exists m'. split; [done|]. split; [done|]. split; [done|]. split.
      * intros name t Ht. destruct (Hfrom name t Ht) as [?|(q & quad' & Hq & Hq' & Hgq)].
        -- by left.
        -- right. exists q, quad'. split; [by right | done].
      * intros q quad' g' [->|Hq]%elem_of_cons Hq' Hgq.
        -- rewrite Hk in Hq'. injection Hq' as <-. congruence.
        -- by apply (Hall q quad').
Qed.

(** X14: on a dataset whose pointers are allocated, [GetNamedGraphs]
    returns graph terms of stored quads, no two of them with the same text,
    and for every stored quad with a graph a term with the text of that
    graph; the default graph is never listed. *)
Theorem GetNamedGraphs_lists_each_text_once (σ : Order) (h : Heap) (d : Dataset) :
  allocated h d ->
  exists l : list Term,
    GetNamedGraphs σ h d = Ok l /\
    NoDup (map Term_String l) /\
    (forall t : Term, t ∈ l ->
       exists q quad, is_Some (quads d !! q) /\ h !! q = Some quad /\
                      Graph quad = Some t) /\
    (forall q quad g, is_Some (quads d !! q) -> h !! q = Some quad ->
       Graph quad = Some g -> exists t : Term, t ∈ l /\ Term_String t = Term_String g).
Proof.
  intros Ha.
  destruct (graph_names_spec h (IterQuads σ d) ∅) as (m & Hrun & Hf & _ & Hfrom & Hall).
  { intros q Hq. apply lookup_lt_is_Some, Ha. by apply (elem_of_IterQuads σ). }
  { intros name t. by rewrite lookup_empty. }
  unfold GetNamedGraphs. rewrite Hrun; simpl. eexists. split; [done|].
  assert (Hentry : forall t, t ∈ map snd (shuffle σ (map_to_list m)) <->
            exists name, m !! name = Some t).
  { intros t. rewrite (shuffle_perm σ). change (map snd ?l) with (snd <$> l).
    rewrite list_elem_of_fmap. split.
    - intros ([name t'] & -> & Hin). exists name. by apply elem_of_map_to_list.
    - intros [name Hname]. exists (name, t). split; [done|].
      by apply elem_of_map_to_list. }
  split; [|split].
  - rewrite (shuffle_perm σ).
    assert (Htexts : map Term_String (map snd (map_to_list m)) = map fst (map_to_list m)).
    { rewrite map_map. apply map_ext_in. intros [name t] Hin; simpl.
      apply Hf. apply elem_of_map_to_list. by apply list_elem_of_In. }
    rewrite Htexts. apply NoDup_fst_map_to_list.
  - intros t Ht. apply Hentry in Ht as [name Hname].
    destruct (Hfrom name t Hname) as [Hempty|(q & quad & Hq & Hq' & Hg)].
    + by rewrite lookup_empty in Hempty.
    + exists q, quad. split; [by apply (elem_of_IterQuads σ) | done].
  - intros q quad g Hq Hq' Hg.
    destruct (Hall q quad g) as [t Ht]; [by apply elem_of_IterQuads | done | done |].
    exists t. split; [apply Hentry; by eexists | by apply Hf].
Qed.

Lemma GetNamedGraphs_lists_each_text_once_witness :
  allocated both_graphs.1 both_graphs.2 /\
  GetNamedGraphs in_order both_graphs.1 both_graphs.2 = Ok [Resource "g"] /\
  exists l : list Term,
    GetNamedGraphs reversed both_graphs.1 both_graphs.2 = Ok l /\
    NoDup (map Term_String l).
Proof.
  assert (Ha : allocated both_graphs.1 both_graphs.2)
    by (apply AddQuad_allocated, AddQuad_allocated, NewDataset_allocated).
  split; [exact Ha|]. split; [reflexivity|].
  destruct (GetNamedGraphs_lists_each_text_once reversed both_graphs.1
              both_graphs.2 Ha) as (l & Hrun & Hnd & _).
  by exists l.
Defined.

(** ** JSON-LD values *)

Lemma termToJSONLDID_Some (t : Term) :
  exists id : string, termToJSONLDID (Some t) = Ok id.
Proof. destruct t; by eexists. Qed.

Lemma termToJSONLDValue_reference (t : Term) :
  match t with
  | Literal _ _ _ => True
  | _ => exists id : string,
           termToJSONLDID (Some t) = Ok id /\
           termToJSONLDValue (Some t) = Ok {[ "@id" := id ]}
  end.
Proof. destruct t; try done; by eexists. Qed.

Lemma termToJSONLDValue_literal (v l : string) (dt : option Term) :
  exists m : gmap string string,
    termToJSONLDValue (Some (Literal v l dt)) = Ok m /\
    m !! "@value" = Some v /\ m !! "@id" = None /\
    m !! "@language" = (if (0 <? String.length l)%nat then Some l else None) /\
    match dt with
    | Some d => termToJSONLDID dt = Ok (default EmptyString (m !! "@type")) /\
                is_Some (m !! "@type")
    | None => m !! "@type" = None
    end.
Proof.
  destruct dt as [[u|v' l' dt'|i]|]; simpl; eexists; (split; [done|]);
    destruct (0 <? String.length l)%nat; simpl;
    rewrite ?lookup_insert_eq, ?lookup_insert_ne, ?lookup_singleton_eq,
      ?lookup_singleton_ne by done; simpl; eauto.
Qed.

Lemma Ok_lookup (m m' : gmap string string) (key : string) :
  Ok m = Ok m' -> m !! key = m' !! key.
Proof. by intros [= ->]. Qed.

Lemma length_zero_empty (l : string) : (0 <? String.length l)%nat = false -> l = EmptyString.
Proof. destruct l; [done | discriminate]. Qed.

(** X15: [termToJSONLDID] and [termToJSONLDValue] panic on a nil term and
    return on every other. The value of a literal is never the value of a
    resource or blank node; two literals with the same value object have
    the same value and language, and datatypes with the same identifier or
    none; two references with the same value object have the same
    identifier. A blank node [x] and the resource [_:x] do have the same
    value object. *)
Theorem termToJSONLDValue_tells_terms_apart (t t' : Term) (id : string) :
  termToJSONLDID None = Panic /\ termToJSONLDValue None = Panic /\
  (exists i : string, termToJSONLDID (Some t) = Ok i) /\
  (exists m : gmap string string, termToJSONLDValue (Some t) = Ok m) /\
  (termToJSONLDValue (Some t) = termToJSONLDValue (Some t') ->
   match t, t' with
   | Literal v l dt, Literal v' l' dt' =>
       v = v' /\ l = l' /\ termToJSONLDID dt = termToJSONLDID dt'
   | Literal _ _ _, _ | _, Literal _ _ _ => False
   | _, _ => termToJSONLDID (Some t) = termToJSONLDID (Some t')
   end) /\
  termToJSONLDValue (Some (BlankNode id))
    = termToJSONLDValue (Some (Resource ("_:" +:+ id))).
Proof.
  split; [done|]. split; [done|]. split; [apply termToJSONLDID_Some|]. split.
  { destruct t as [u|v l dt|i]; [by eexists | | by eexists].
    destruct (termToJSONLDValue_literal v l dt) as (m & Hm & _). by exists m. }
  split; [|done].
  assert (Hmix : forall v l dt r,
            match r with Literal _ _ _ => False | _ => True end ->
            termToJSONLDValue (Some (Literal v l dt)) <> termToJSONLDValue (Some r)).
  { intros v l dt r Hr Heq.
    destruct (termToJSONLDValue_literal v l dt) as (m & Hm & Hv & _).
    pose proof (termToJSONLDValue_reference r) as Href.
    destruct r as [u|? ? ?|i]; [|done|];
      destruct Href as (rid & _ & Hrm); rewrite Hm, Hrm in Heq;
      apply (Ok_lookup _ _ "@value") in Heq;
      rewrite Hv, lookup_singleton_ne in Heq; done. }
  assert (Hrefs : forall r r',
            match r with Literal _ _ _ => False | _ => True end ->
            match r' with Literal _ _ _ => False | _ => True end ->
            termToJSONLDValue (Some r) = termToJSONLDValue (Some r') ->
            termToJSONLDID (Some r) = termToJSONLDID (Some r')).
  { intros r r' Hr Hr' Heq.
    pose proof (termToJSONLDValue_reference r) as Href.
    pose proof (termToJSONLDValue_reference r') as Href'.
    destruct r as [u|? ? ?|i]; [|done|]; destruct r' as [u'|? ? ?|i']; try done;
      destruct Href as (rid & -> & Hrm), Href' as (rid' & -> & Hrm');
      rewrite Hrm, Hrm' in Heq;
      apply (Ok_lookup _ _ "@id") in Heq;
      rewrite !lookup_singleton_eq in Heq; congruence. }
  destruct t as [u|v l dt|i], t' as [u'|v' l' dt'|i'].
  - by apply Hrefs.
  - intros Heq. symmetry in Heq. by apply Hmix in Heq.
  - by apply Hrefs.
  - intros Heq. by apply Hmix in Heq.
  - intros Heq.
    destruct (termToJSONLDValue_literal v l dt) as (m & Hm & Hv & _ & Hl & Hd).
    destruct (termToJSONLDValue_literal v' l' dt') as (m' & Hm' & Hv' & _ & Hl' & Hd').
    rewrite Hm, Hm' in Heq.
    assert (m = m') as <- by (by injection Heq).
    split; [congruence|]. split.
    + rewrite Hl in Hl'.
      destruct (0 <? String.length l)%nat eqn:El, (0 <? String.length l')%nat eqn:El';
        try congruence.
      by rewrite (length_zero_empty l El), (length_zero_empty l' El').
    + destruct dt as [d|], dt' as [d'|].
      * destruct Hd as [-> _], Hd' as [-> _]. done.
      * destruct Hd as [_ [? Hd]]. congruence.
      * destruct Hd' as [_ [? Hd']]. congruence.
      * done.
  - intros Heq. by apply Hmix in Heq.
  - by apply Hrefs.
  - intros Heq. symmetry in Heq. by apply Hmix in Heq.
  - by apply Hrefs.
Qed.

Lemma termToJSONLDValue_tells_terms_apart_witness :
  termToJSONLDValue (Some (Literal "a" "en" None))
    = termToJSONLDValue (Some (Literal "a" "en" None)) /\
  termToJSONLDID None = termToJSONLDID None.
Proof.
  split; [reflexivity|].
  exact (proj2 (proj2 (proj1 (proj2 (proj2 (proj2 (proj2
    (termToJSONLDValue_tells_terms_apart (Literal "a" "en" None)
       (Literal "a" "en" None) EmptyString))))) eq_refl))).
Defined.

(** ** The empty dataset, and insertion followed by a query *)

Lemma IterQuads_NewDataset (σ : Order) (u : string) : IterQuads σ (NewDataset u) = [].
Proof.
  unfold IterQuads; simpl. rewrite map_to_list_empty. simpl.
  apply Permutation_nil_r, shuffle_perm.
Qed.

Lemma shuffle_nil (σ : Order) (A : Type) : shuffle σ ([] : list A) = [].
Proof. apply Permutation_nil_r, shuffle_perm. Qed.

(** X16: on a new dataset, whatever the heap, the pattern and the runtime's
    order: [Len] is zero, [One] finds no match, [All] and [GetNamedGraphs]
    return nothing, [String] is the empty text, and the TriG and flat
    writers write nothing and report no error. *)
Theorem NewDataset_is_empty (σ : Order) (h : Heap) (u : string)
    (s p o g : option Term) (w : Writer) :
  Len (NewDataset u) = 0 /\
  uri (NewDataset u) = u /\ term (NewDataset u) = NewResource u /\
  One σ h (NewDataset u) s p o g = Ok None /\
  All σ h (NewDataset u) s p o g = Ok [] /\
  GetNamedGraphs σ h (NewDataset u) = Ok [] /\
  Dataset_String σ h (NewDataset u) = Ok EmptyString /\
  serializeNQuads σ h (NewDataset u) w = Ok (w, None) /\
  serializeTrig σ h (NewDataset u) w = Ok (w, None).
Proof.
  unfold One, All, GetNamedGraphs, Dataset_String, serializeNQuads, serializeTrig.
  rewrite IterQuads_NewDataset; simpl. rewrite map_to_list_empty, !shuffle_nil.
  repeat split; reflexivity.
Qed.




(** ** Facts about the [strings] functions *)

Lemma append_cons (c : ascii) (a b : string) :
  String c a +:+ b = String c (a +:+ b).
Proof. reflexivity. Qed.

Lemma length_append (a b : string) :
  String.length (a +:+ b) = String.length a + String.length b.
Proof.
  induction a as [|c a IH]; [done|]. rewrite append_cons; simpl. by rewrite IH.
Qed.

Lemma rev_app_append (a b acc : string) :
  String.rev_app (a +:+ b) acc = String.rev_app b (String.rev_app a acc).
Proof.
  revert acc. induction a as [|c a IH]; intros acc; [done|].
  rewrite append_cons; simpl. apply IH.
Qed.

Lemma rev_app_acc (a acc : string) :
  String.rev_app a acc = String.rev_app a EmptyString +:+ acc.
Proof.
  revert acc. induction a as [|c a IH]; intros acc; [done|]. simpl.
  rewrite (IH (String c acc)), (IH (String c EmptyString)).
  by rewrite append_assoc.
Qed.

Lemma rev_append (a b : string) :
  String.rev (a +:+ b) = String.rev b +:+ String.rev a.
Proof. unfold String.rev. by rewrite rev_app_append, rev_app_acc. Qed.

Lemma rev_involutive (a : string) : String.rev (String.rev a) = a.
Proof.
  induction a as [|c a IH]; [done|].
  change (String c a) with (String c EmptyString +:+ a) at 1.
  by rewrite rev_append, rev_append, IH.
Qed.

Lemma substring_prefix (a b : string) :
  String.substring 0 (String.length a) (a +:+ b) = a.
Proof.
  induction a as [|c a IH].
  - change (EmptyString +:+ b) with b. by destruct b.
  - rewrite append_cons. simpl. by rewrite IH.
Qed.

Lemma Contains_append_r (a b sub : string) :
  strings.Contains b sub = true -> strings.Contains (a +:+ b) sub = true.
Proof.
  intros Hb. induction a as [|c a IH]; [done|].
  rewrite append_cons; simpl. rewrite IH. apply orb_true_r.
Qed.

(** No byte of [a] is [sep]. *)
Fixpoint free_of (sep : ascii) (a : string) : Prop :=
  match a with
  | EmptyString => True
  | String c a' => c <> sep /\ free_of sep a'
  end.

Lemma Contains_free_of (sep : ascii) (a : string) :
  strings.Contains a (String sep EmptyString) = false -> free_of sep a.
Proof.
  induction a as [|c a IH]; [done|]. simpl.
  destruct (ascii_dec sep c) as [->|Hne].
  - by destruct a.
  - simpl. intros Ha. split; [congruence | by apply IH].
Qed.

Lemma Split_go_first (sep : ascii) (a rest cur : string) :
  free_of sep a ->
  strings.Split_go sep cur (a +:+ String sep rest)
  = String.rev (String.rev_app a cur) :: strings.Split_go sep EmptyString rest.
Proof.
  revert cur. induction a as [|c a IH]; intros cur Hfree.
  - simpl. by rewrite Ascii.eqb_refl.
  - destruct Hfree as [Hc Hfree]. rewrite append_cons; simpl.
    apply Ascii.eqb_neq in Hc. rewrite Hc. by apply IH.
Qed.

Lemma Split_first (sep : ascii) (a rest : string) :
  free_of sep a ->
  strings.Split (a +:+ String sep rest) sep
  = a :: strings.Split_go sep EmptyString rest.
Proof.
  intros Hfree. unfold strings.Split. rewrite Split_go_first by done.
  by rewrite <- (rev_involutive a) at 2.
Qed.

Lemma free_of_append (sep : ascii) (a b : string) :
  free_of sep a -> free_of sep b -> free_of sep (a +:+ b).
Proof.
  intros Ha Hb. induction a as [|c a IH]; [done|].
  destruct Ha as [Hc Ha]. rewrite append_cons. split; [done | by apply IH].
Qed.

Lemma rev_cons (c : ascii) (s : string) :
  String.rev (String c s) = String.rev s +:+ String c EmptyString.
Proof.
  change (String c s) with (String c EmptyString +:+ s). by rewrite rev_append.
Qed.

Lemma rev_snoc (c : ascii) (s : string) :
  String.rev (s +:+ String c EmptyString) = String c (String.rev s).
Proof. by rewrite rev_append. Qed.

(** The trimming loops stop at a byte that starts no blank. *)
Lemma TrimLeft_go_stop (fuel : nat) (s : string) :
  strings.leading_space s = 0 -> strings.TrimLeft_go fuel s = s.
Proof. intros Hs. destruct fuel; [done|]. simpl. by rewrite Hs. Qed.

Lemma TrimRight_go_stop (fuel : nat) (r : string) :
  strings.trailing_space r = 0 -> strings.TrimRight_go fuel r = r.
Proof. intros Hr. destruct fuel; [done|]. simpl. by rewrite Hr. Qed.

Lemma leading_space_lt (s : string) : strings.leading_space (String "<" s) = 0.
Proof. vm_compute. reflexivity. Qed.

Lemma trailing_space_gt (s : string) : strings.trailing_space (String ">" s) = 0.
Proof. vm_compute. reflexivity. Qed.

Lemma trailing_space_brace (s : string) :
  strings.trailing_space (String "{" s) = 0.
Proof. vm_compute. reflexivity. Qed.

(** A text between two bytes that start no blank is left as it is. *)
Lemma TrimSpace_enclosed (a b : ascii) (u : string) :
  (forall s, strings.leading_space (String a s) = 0) ->
  (forall s, strings.trailing_space (String b s) = 0) ->
  strings.TrimSpace (String a (u +:+ String b EmptyString))
  = String a (u +:+ String b EmptyString).
Proof.
  intros Ha Hb. unfold strings.TrimSpace, strings.TrimLeft, strings.TrimRight.
  rewrite (TrimLeft_go_stop _ _ (Ha _)).
  rewrite rev_cons, rev_snoc, append_cons.
  rewrite (TrimRight_go_stop _ _ (Hb _)).
  rewrite <- append_cons, <- rev_snoc, <- rev_cons.
  apply rev_involutive.
Qed.

(** One space after such a text is cut. *)
Lemma TrimSpace_enclosed_blank (a b : ascii) (u : string) :
  (forall s, strings.leading_space (String a s) = 0) ->
  (forall s, strings.trailing_space (String b s) = 0) ->
  strings.TrimSpace (String a (u +:+ String b " "))
  = String a (u +:+ String b EmptyString).
Proof.
  intros Ha Hb. unfold strings.TrimSpace, strings.TrimLeft, strings.TrimRight.
  rewrite (TrimLeft_go_stop _ _ (Ha _)).
  change (String b " ") with (String b EmptyString +:+ " ").
  rewrite <- append_assoc, <- append_cons, rev_snoc.
  simpl String.length. cbn [strings.TrimRight_go].
  change (strings.trailing_space (String " " ?r)) with 1.
  cbv iota. cbn [strings.drop_bytes].
  rewrite rev_cons, rev_snoc, append_cons.
  rewrite (TrimRight_go_stop _ _ (Hb _)).
  rewrite <- append_cons, <- rev_snoc, <- rev_cons.
  apply rev_involutive.
Qed.

Lemma HasPrefix_cons (c : ascii) (s : string) :
  strings.HasPrefix (String c s) (String c EmptyString) = true.
Proof.
  unfold strings.HasPrefix. simpl. destruct (ascii_dec c c); [|done]. by destruct s.
Qed.

Lemma HasSuffix_snoc (c : ascii) (s : string) :
  strings.HasSuffix (s +:+ String c EmptyString) (String c EmptyString) = true.
Proof. unfold strings.HasSuffix. rewrite rev_snoc. apply HasPrefix_cons. Qed.

Lemma slice_enclosed (a b : ascii) (u : string) :
  strings.slice (String a (u +:+ String b EmptyString)) 1
    (String.length (String a (u +:+ String b EmptyString)) - 1) = u.
Proof.
  unfold strings.slice. simpl. rewrite length_append. simpl.
  replace (String.length u + 1 - 0 - 1) with (String.length u) by lia.
  apply substring_prefix.
Qed.

(** ** Graph names written and read back *)

Lemma Term_String_Resource (u : string) :
  Term_String (Resource u) = String "<" (u +:+ ">").
Proof. reflexivity. Qed.

Lemma parseGraphName_bracketed (u : string) :
  parseGraphName (String "<" (u +:+ ">")) = Some (Resource u).
Proof.
  unfold parseGraphName.
  rewrite (TrimSpace_enclosed _ _ _ leading_space_lt trailing_space_gt).
  rewrite HasPrefix_cons.
  change (String "<" (u +:+ ">")) with (String "<" u +:+ ">") at 1.
  rewrite HasSuffix_snoc. simpl andb. cbv iota.
  by rewrite slice_enclosed.
Qed.


(** X19: the header [serializeTrig] writes for the named graph of a resource,
    its text followed by a space and an opening brace, is read by the loop
    of [parseTrig] as the start of that graph when the URI holds no opening
    brace: the current graph becomes the resource, the pending lines and
    the store stay as they are. *)
Theorem parseTrig_reads_graph_header `{External} (sc : scanner) (u : string) :
  strings.Contains u "{" = false ->
  parseTrig_line sc (Term_String (Resource u) +:+ " {")
  = mkScanner (Some (Resource u)) (currentTripleLines sc) (current sc).
Proof.
  intros Hu. apply Contains_free_of in Hu.
  rewrite Term_String_Resource, append_cons, append_assoc.
  unfold parseTrig_line.
  change (">" +:+ " {") with ("> " +:+ "{").
  rewrite <- append_assoc.
  rewrite (TrimSpace_enclosed _ _ _ leading_space_lt trailing_space_brace).
  change (String.eqb (String "<" ?s) EmptyString) with false.
  change (strings.HasPrefix (String "<" ?s) "#") with false.
  change (strings.HasPrefix (String "<" ?s) "@prefix") with false.
  cbv beta iota zeta. simpl orb. cbv iota.
  rewrite <- append_cons.
  rewrite Contains_append_r by reflexivity.
  rewrite Split_first.
  2:{ split; [done|]. apply free_of_append; [done|]. by repeat split. }
  simpl strings.Split_go. simpl length. simpl nth.
  change (1 <? 2)%nat with true. cbv iota.
  change (u +:+ "> ") with (u +:+ String ">" " ").
  rewrite (TrimSpace_enclosed_blank _ _ _ leading_space_lt trailing_space_gt).
  change (String.eqb (String "<" ?s) EmptyString) with false. cbv iota.
  by rewrite parseGraphName_bracketed.
Qed.

Lemma parseTrig_reads_graph_header_witness :
  strings.Contains "g" "{" = false /\
  @parseTrig_line stub (mkScanner None ["<a> <b>"] added_once) "<g> {"
  = mkScanner (Some (Resource "g")) ["<a> <b>"] added_once.
Proof.
  split; [reflexivity|].
  exact (@parseTrig_reads_graph_header stub
           (mkScanner None ["<a> <b>"] added_once) "g" eq_refl).
Defined.
